(** * obsidian-checkbox-sort: the click handler of [src/main.ts]

    A shallow embedding of [ObsidianCheckboxSort.sortCheckboxesAroundClick]
    and of the string, regular-expression and editor operations it calls.

    - A JavaScript string is the list of its UTF-16 code units ([list N]);
      [RegExp.prototype.test], [String.prototype.trim] and friends work on
      code units, so nothing is lost.
    - The editor buffer is the list of its lines.  CodeMirror never keeps a
      line break inside a line, which is what [wf_doc] records.
    - The function returns at one of five places; [outcome] names them.  The
      only one that touches the buffer is the call of [editor.transaction].
    - Lines 124-129 compute a first [blockStartLine] that is only shown in a
      debug message; the value the handler works with is computed again at
      lines 207-217, and that is the one embedded here.
    - The debug messages are left out; the exit taken tells which was the
      last one. *)

From Stdlib Require Import NArith String Ascii.
From stdpp Require Import list gmap.

Local Open Scope nat_scope.

(** ** JavaScript strings *)

Abbreviation jsstring := (list N).

(** Code units of a literal (all literals of the source are ASCII). *)
Fixpoint js (s : string) : jsstring :=
  match s with
  | EmptyString => []
  | String c s' => N_of_ascii c :: js s'
  end.
Arguments js s%_string.

Definition LF : N := 10%N.

(** The class [\s] of a JavaScript regular expression, which is also the set
    [String.prototype.trim] strips: WhiteSpace and LineTerminator. *)
Definition isWhiteSpace (c : N) : bool :=
  ((9 <=? c) && (c <=? 13) || (c =? 32) || (c =? 160) || (c =? 5760)
   || (8192 <=? c) && (c <=? 8202) || (c =? 8232) || (c =? 8233)
   || (c =? 8239) || (c =? 8287) || (c =? 12288) || (c =? 65279))%N.

(** The class [[-*+]]. *)
Definition isBullet (c : N) : bool :=
  ((c =? 45) || (c =? 42) || (c =? 43))%N.

(** The longest match of [\s*] at the start of a string, and what follows. *)
Fixpoint leadingSpaces (s : jsstring) : jsstring :=
  match s with
  | c :: s' => if isWhiteSpace c then c :: leadingSpaces s' else []
  | [] => []
  end.

Fixpoint trimStart (s : jsstring) : jsstring :=
  match s with
  | c :: s' => if isWhiteSpace c then trimStart s' else s
  | [] => []
  end.

(** What is left when the white space at the end is taken away. *)
Fixpoint trimEnd (s : jsstring) : jsstring :=
  match s with
  | [] => []
  | c :: s' =>
      match trimEnd s' with
      | [] => if isWhiteSpace c then [] else [c]
      | t => c :: t
      end
  end.

(** [s.trim()] *)
Definition trim (s : jsstring) : jsstring := trimEnd (trimStart s).

(** [s.startsWith(p)] *)
Fixpoint startsWith (p s : jsstring) : bool :=
  match p, s with
  | [], _ => true
  | a :: p', b :: s' => (a =? b)%N && startsWith p' s'
  | _ :: _, [] => false
  end.

(** [s.includes(p)] *)
Fixpoint includes (p s : jsstring) : bool :=
  startsWith p s ||
  match s with
  | [] => false
  | _ :: s' => includes p s'
  end.

(** [s.replace(p, r)] for a string pattern [p]: the first occurrence only.
    Neither replacement of the source contains a [$]. *)
Fixpoint replace (p r s : jsstring) : jsstring :=
  if startsWith p s then r ++ drop (length p) s
  else match s with
       | [] => []
       | c :: s' => c :: replace p r s'
       end.

(** [s.endsWith('\n')] *)
Definition endsWithLF (s : jsstring) : bool :=
  match last s with
  | Some c => (c =? LF)%N
  | None => false
  end.

(** [s.slice(0, -1)] *)
Definition sliceInit (s : jsstring) : jsstring := removelast s.

(** [s.split('\n')] *)
Fixpoint split (s : jsstring) : list jsstring :=
  match s with
  | [] => [[]]
  | c :: s' =>
      if (c =? LF)%N then [] :: split s'
      else match split s' with
           | l :: ls => (c :: l) :: ls
           | [] => [[c]]
           end
  end.

(** [ls.join('\n')] *)
Fixpoint join (ls : list jsstring) : jsstring :=
  match ls with
  | [] => []
  | [l] => l
  | l :: ls' => l ++ LF :: join ls'
  end.

(** ** The three patterns of the plugin *)

(** [getIndentationLevel]: the length of the match of [/^\s*/]. *)
Definition getIndentationLevel (line : jsstring) : nat :=
  length (leadingSpaces line).

(** [listItemRegex.test(line)] for [/^\s*[-*+]\s+/].  A bullet is no white
    space, so [\s*] has to take the whole run of leading white space, and
    [\s+] asks for one more white-space unit after the bullet. *)
Definition listItemRegex (line : jsstring) : bool :=
  match trimStart line with
  | b :: w :: _ => isBullet b && isWhiteSpace w
  | _ => false
  end.

(** [tickedCheckboxRegex.test(line)] for [/^\s*[-*+]\s+\[x\]/].  An opening
    bracket is no white space, so [\s+] takes the whole run after the
    bullet. *)
Definition tickedCheckboxRegex (line : jsstring) : bool :=
  match trimStart line with
  | b :: w :: rest =>
      isBullet b && isWhiteSpace w && startsWith (js "[x]") (trimStart rest)
  | _ => false
  end.

Definition enableMarker : jsstring := js "%%checkbox-sort: true%%".
Definition disableMarker : jsstring := js "%%checkbox-sort: false%%".

(** ** Settings and front matter *)

Record CheckboxSortSettings := {
  enableGlobalCheckboxSort : bool;
  debugMode : bool
}.

Definition DEFAULT_SETTINGS : CheckboxSortSettings :=
  {| enableGlobalCheckboxSort := true; debugMode := false |}.

(** The values a front-matter entry can hold, as far as the handler looks at
    them: it compares with [undefined] and asks for [typeof]. *)
Inductive jsvalue :=
  | JSUndefined
  | JSNull
  | JSBoolean (b : bool)
  | JSNumber (z : Z)
  | JSString (s : jsstring)
  | JSObject.

Inductive jstype := TUndefined | TObject | TBoolean | TNumber | TString.

#[global] Instance jsvalue_eq_dec : EqDecision jsvalue.
Proof. solve_decision. Defined.

#[global] Instance jstype_eq_dec : EqDecision jstype.
Proof. solve_decision. Defined.

Definition typeof (v : jsvalue) : jstype :=
  match v with
  | JSUndefined => TUndefined
  | JSNull => TObject
  | JSBoolean _ => TBoolean
  | JSNumber _ => TNumber
  | JSString _ => TString
  | JSObject => TObject
  end.

(** The boolean a value of type boolean stands for. *)
Definition toBoolean (v : jsvalue) : bool :=
  match v with
  | JSBoolean b => b
  | _ => false
  end.

(** [fileCache?.frontmatter]: [None] when there is no file, no cache entry
    or no front matter; otherwise the object, as a finite map. *)
Abbreviation frontmatter := (option (gmap jsstring jsvalue)).

(** [fm[key]]: a missing property reads as [undefined]. *)
Definition getProperty (fm : gmap jsstring jsvalue) (key : jsstring) : jsvalue :=
  default JSUndefined (fm !! key).

Inductive settingSource :=
  | GlobalDefault
  | FileFrontmatter
  | ListMarkerEnable
  | ListMarkerDisable.

(** Lines 94-109: the global setting, replaced by a boolean
    [checkbox-sort] entry of the front matter. *)
Definition fileLevelSortingEnabled
    (settings : CheckboxSortSettings) (fm : frontmatter) : bool * settingSource :=
  match fm with
  | Some o =>
      let v := getProperty o (js "checkbox-sort") in
      if bool_decide (v ≠ JSUndefined) && bool_decide (typeof v = TBoolean)
      then (toBoolean v, FileFrontmatter)
      else (enableGlobalCheckboxSort settings, GlobalDefault)
  | None => (enableGlobalCheckboxSort settings, GlobalDefault)
  end.

(** ** The editor

    The editor is Obsidian's, not the plugin's.  Its four operations used by
    the handler ([lineCount], [getLine], [getRange], [transaction]) are given
    the meaning of the line buffer of the specification: positions are
    (line, column) pairs, the text of the buffer is its lines joined by line
    breaks, and a replacement acts on that text. *)

Abbreviation document := (list jsstring).

(** No line of the buffer holds a line break, and the buffer has a line. *)
Definition wf_doc (doc : document) : Prop :=
  doc ≠ [] ∧ Forall (λ l, LF ∉ l) doc.

Definition lineCount (doc : document) : nat := length doc.

(** [editor.getLine(i)] for a line that exists; the handler reads the clicked
    line first, and every other index it reads lies in the buffer. *)
Definition getLine (doc : document) (i : nat) : jsstring :=
  default [] (doc !! i).

Record EditorPosition := { line : nat; ch : nat }.

(** The buffer as one string, and the offset of a position in it. *)
Definition docText (doc : document) : jsstring := join doc.

Definition posToOffset (doc : document) (p : EditorPosition) : nat :=
  sum_list (map (λ l, S (length l)) (take (line p) doc)) + ch p.

(** [editor.getRange(from, to)] *)
Definition getRange (doc : document) (from to : EditorPosition) : jsstring :=
  take (posToOffset doc to - posToOffset doc from)
       (drop (posToOffset doc from) (docText doc)).

(** [editor.transaction({changes: [{from, to, text}]})]: the buffer after the
    range is replaced. *)
Definition transaction
    (doc : document) (from to : EditorPosition) (text : jsstring) : document :=
  split (take (posToOffset doc from) (docText doc) ++ text
         ++ drop (posToOffset doc to) (docText doc)).

(** ** The marker scan, lines 140-165 *)

(** [n] is [scanLineNum + 1]; the result is [listMarkerFound] together with
    [foundMarkerLine], [None] standing for [null]. *)
Fixpoint scanListMarker (doc : document) (n : nat) : option (bool * nat) :=
  match n with
  | 0 => None
  | S scanLineNum =>
      let lineContent := trim (getLine doc scanLineNum) in
      if includes enableMarker lineContent then Some (true, scanLineNum)
      else if includes disableMarker lineContent then Some (false, scanLineNum)
      else if negb (listItemRegex lineContent) then None
      else scanListMarker doc scanLineNum
  end.

(** Lines 94-173: [effectiveSortingEnabled] and [settingSource]. *)
Definition effectiveSortingEnabled
    (settings : CheckboxSortSettings) (fm : frontmatter)
    (doc : document) (clickedLineNumber : nat) : bool * settingSource :=
  match scanListMarker doc clickedLineNumber with
  | Some (true, _) => (true, ListMarkerEnable)
  | Some (false, _) => (false, ListMarkerDisable)
  | None => fileLevelSortingEnabled settings fm
  end.

(** ** The peer block, lines 207-224 *)

(** The upward scan; [n] is [i + 1]. *)
Fixpoint scanUp (doc : document) (currentIndent n blockStartLine : nat) : nat :=
  match n with
  | 0 => blockStartLine
  | S i =>
      let l := getLine doc i in
      let indent := getIndentationLevel l in
      if negb (listItemRegex l) then blockStartLine
      else if indent =? currentIndent then scanUp doc currentIndent i i
      else if indent <? currentIndent then blockStartLine
      else scanUp doc currentIndent i blockStartLine
  end.

(** The downward scan; [fuel] is [totalLines - i]. *)
Fixpoint scanDown (doc : document) (currentIndent fuel i blockEndLine : nat) : nat :=
  match fuel with
  | 0 => blockEndLine
  | S fuel' =>
      let l := getLine doc i in
      let indent := getIndentationLevel l in
      if negb (listItemRegex l) then blockEndLine
      else if indent =? currentIndent then scanDown doc currentIndent fuel' (S i) i
      else if indent <? currentIndent then blockEndLine
      else scanDown doc currentIndent fuel' (S i) blockEndLine
  end.

Definition blockStartLine (doc : document) (clickedLineNumber : nat) : nat :=
  scanUp doc (getIndentationLevel (getLine doc clickedLineNumber))
         clickedLineNumber clickedLineNumber.

Definition blockEndLine (doc : document) (clickedLineNumber : nat) : nat :=
  scanDown doc (getIndentationLevel (getLine doc clickedLineNumber))
           (lineCount doc - S clickedLineNumber) (S clickedLineNumber)
           clickedLineNumber.

(** ** The peer loop, lines 231-289 *)

(** Lines 242-249; [fuel] is [totalLines - j]. *)
Fixpoint scanTree (doc : document) (currentPeerIndent fuel j peerTreeEndLine : nat) : nat :=
  match fuel with
  | 0 => peerTreeEndLine
  | S fuel' =>
      let descLineText := getLine doc j in
      let descIndent := getIndentationLevel descLineText in
      if negb (listItemRegex descLineText) || (descIndent <=? currentPeerIndent)
      then peerTreeEndLine
      else scanTree doc currentPeerIndent fuel' (S j) j
  end.

Definition peerTreeEndLine (doc : document) (i : nat) : nat :=
  scanTree doc (getIndentationLevel (getLine doc i)) (lineCount doc - S i) (S i) i.

(** Lines 254-258; [n] lines are appended from line [k] on, so the call with
    [k := i] and [n := peerTreeEndLine + 1 - i] is the source's loop. *)
Fixpoint appendLines (doc : document) (n k : nat) (peerTreeText : jsstring) : jsstring :=
  match n with
  | 0 => peerTreeText
  | S n' =>
      appendLines doc n' (S k)
        (peerTreeText ++ getLine doc k
           ++ (if k =? lineCount doc - 1 then [] else [LF]))
  end.

Definition peerTreeText (doc : document) (i peerTreeEndLine : nat) : jsstring :=
  appendLines doc (S peerTreeEndLine - i) i [].

(** Lines 270-271: the checkbox of a line set to the new state. *)
Definition toggle (isNowTicked : bool) (l : jsstring) : jsstring :=
  if isNowTicked then replace (js "[ ]") (js "[x]") l
  else replace (js "[x]") (js "[ ]") l.

(** Lines 268-272: the first line of the clicked block gets the new state. *)
Definition updateClicked (isNowTicked : bool) (peerTreeText : jsstring) : jsstring :=
  match split peerTreeText with
  | l0 :: ls => join (toggle isNowTicked l0 :: ls)
  | [] => peerTreeText
  end.

Record itemData := { text : jsstring; originalLine : nat }.

Record buckets := {
  untickedItemsData : list itemData;
  tickedItemsData : list itemData
}.

Definition push (isPeerTickedForSorting : bool) (d : itemData) (b : buckets) : buckets :=
  if isPeerTickedForSorting
  then {| untickedItemsData := untickedItemsData b;
          tickedItemsData := tickedItemsData b ++ [d] |}
  else {| untickedItemsData := untickedItemsData b ++ [d];
          tickedItemsData := tickedItemsData b |}.

(** One peer, lines 241-285: its text and the bucket it goes to. *)
Definition peerItem (doc : document) (clickedLineNumber : nat) (isNowTicked : bool)
    (i : nat) : bool * itemData :=
  let currentPeerLineText := getLine doc i in
  let treeText := peerTreeText doc i (peerTreeEndLine doc i) in
  if i =? clickedLineNumber
  then (isNowTicked,
        {| text := updateClicked isNowTicked treeText; originalLine := i |})
  else (tickedCheckboxRegex currentPeerLineText,
        {| text := treeText; originalLine := i |}).

(** The [while (i <= blockEndLine)] loop.  Every turn moves [i] forward, so
    [blockEndLine + 1 - i] turns are enough ([peerLoop_fuel] below). *)
Fixpoint peerLoop (doc : document) (clickedLineNumber currentIndent : nat)
    (isNowTicked : bool) (blockEndLine fuel i : nat) (b : buckets) : buckets :=
  match fuel with
  | 0 => b
  | S fuel' =>
      if blockEndLine <? i then b
      else
        let currentPeerLineText := getLine doc i in
        let currentPeerIndent := getIndentationLevel currentPeerLineText in
        if negb (listItemRegex currentPeerLineText)
           || negb (currentPeerIndent =? currentIndent)
        then peerLoop doc clickedLineNumber currentIndent isNowTicked
               blockEndLine fuel' (S i) b
        else
          let '(isPeerTickedForSorting, d) :=
            peerItem doc clickedLineNumber isNowTicked i in
          peerLoop doc clickedLineNumber currentIndent isNowTicked
            blockEndLine fuel' (S (peerTreeEndLine doc i))
            (push isPeerTickedForSorting d b)
  end.

Definition isNowTicked (doc : document) (clickedLineNumber : nat) : bool :=
  negb (tickedCheckboxRegex (getLine doc clickedLineNumber)).

Definition sortedBuckets (doc : document) (clickedLineNumber : nat) : buckets :=
  peerLoop doc clickedLineNumber
    (getIndentationLevel (getLine doc clickedLineNumber))
    (isNowTicked doc clickedLineNumber)
    (blockEndLine doc clickedLineNumber)
    (S (blockEndLine doc clickedLineNumber) - blockStartLine doc clickedLineNumber)
    (blockStartLine doc clickedLineNumber)
    {| untickedItemsData := []; tickedItemsData := [] |}.

(** ** The replacement, lines 291-320 *)

Definition finalBlockText (doc : document) (clickedLineNumber : nat) : jsstring :=
  let b := sortedBuckets doc clickedLineNumber in
  concat (map text (untickedItemsData b)) ++ concat (map text (tickedItemsData b)).

(** Lines 297-304; [fuel] is [totalLines - i]. *)
Fixpoint scanOverall (doc : document) (currentIndent fuel i overallBlockEndLine : nat) : nat :=
  match fuel with
  | 0 => overallBlockEndLine
  | S fuel' =>
      let l := getLine doc i in
      let indent := getIndentationLevel l in
      if negb (listItemRegex l) || (indent <? currentIndent)
      then overallBlockEndLine
      else scanOverall doc currentIndent fuel' (S i) i
  end.

Definition overallBlockEndLine (doc : document) (clickedLineNumber : nat) : nat :=
  let blockEnd := blockEndLine doc clickedLineNumber in
  scanOverall doc (getIndentationLevel (getLine doc clickedLineNumber))
    (lineCount doc - S blockEnd) (S blockEnd) blockEnd.

Definition deleteFrom (doc : document) (clickedLineNumber : nat) : EditorPosition :=
  {| line := blockStartLine doc clickedLineNumber; ch := 0 |}.

Definition deleteTo (doc : document) (clickedLineNumber : nat) : EditorPosition :=
  let overallEnd := overallBlockEndLine doc clickedLineNumber in
  if overallEnd =? lineCount doc - 1
  then {| line := overallEnd; ch := length (getLine doc overallEnd) |}
  else {| line := S overallEnd; ch := 0 |}.

(** Lines 314-320. *)
Definition normalizeNewline (doc : document) (overallEnd : nat) (finalText : jsstring) : jsstring :=
  let t1 :=
    if negb (endsWithLF finalText) && (overallEnd <? lineCount doc - 1)
    then finalText ++ [LF] else finalText in
  if endsWithLF t1 && (overallEnd =? lineCount doc - 1)
  then sliceInit t1 else t1.

Definition textToInsert (doc : document) (clickedLineNumber : nat) : jsstring :=
  normalizeNewline doc (overallBlockEndLine doc clickedLineNumber)
    (finalBlockText doc clickedLineNumber).

Definition originalBlockText (doc : document) (clickedLineNumber : nat) : jsstring :=
  getRange doc (deleteFrom doc clickedLineNumber) (deleteTo doc clickedLineNumber).

(** Line 324: [textToInsert.trim() === originalBlockText.trim()]. *)
Definition noChangesNeeded (doc : document) (clickedLineNumber : nat) : bool :=
  bool_decide (trim (textToInsert doc clickedLineNumber)
               = trim (originalBlockText doc clickedLineNumber)).

(** ** The handler *)

(** Where the handler returns, and with what the console is told there. *)
Inductive outcome :=
  | LineMissing
      (** [editor.getLine] threw on the clicked line *)
  | SortingDisabled (source : settingSource)
      (** line 180, after the debug message of line 178 *)
  | NotAListItem (lineNumber : nat)
      (** line 200, after [console.warn] of line 199 *)
  | NoChanges
      (** line 326, after the debug message of line 325 *)
  | Transaction (from to : EditorPosition) (text : jsstring)
      (** line 329, the one write *).

Definition sortCheckboxesAroundClick
    (settings : CheckboxSortSettings) (fm : frontmatter)
    (doc : document) (clickedLineNumber : nat) : outcome :=
  match doc !! clickedLineNumber with
  | None => LineMissing
  | Some clickedLineText =>
      let '(enabled, source) :=
        effectiveSortingEnabled settings fm doc clickedLineNumber in
      if negb enabled then SortingDisabled source
      else if negb (listItemRegex clickedLineText) then NotAListItem clickedLineNumber
      else if noChangesNeeded doc clickedLineNumber then NoChanges
      else Transaction (deleteFrom doc clickedLineNumber)
                       (deleteTo doc clickedLineNumber)
                       (textToInsert doc clickedLineNumber)
  end.

(** The buffer after the click has been handled. *)
Definition documentAfter (doc : document) (o : outcome) : document :=
  match o with
  | Transaction from to text => transaction doc from to text
  | _ => doc
  end.

Definition handleClick
    (settings : CheckboxSortSettings) (fm : frontmatter)
    (doc : document) (clickedLineNumber : nat) : document :=
  documentAfter doc (sortCheckboxesAroundClick settings fm doc clickedLineNumber).

(** ** Notions used to state the properties *)

(** A string with a unit that is no white space. *)
Definition solid (s : jsstring) : Prop := trimStart s ≠ [].

(** Every line followed by a line break. *)
Definition unlines (ls : list jsstring) : jsstring :=
  concat (map (λ l, l ++ [LF]) ls).

(** A function applied to the last, or to the first, line of a list. *)
Fixpoint mapLast (f : jsstring → jsstring) (ls : list jsstring) : list jsstring :=
  match ls with
  | [] => []
  | [l] => [f l]
  | l :: ls' => l :: mapLast f ls'
  end.

Definition mapHead (f : jsstring → jsstring) (ls : list jsstring) : list jsstring :=
  match ls with
  | [] => []
  | l :: ls' => f l :: ls'
  end.

(** The lines of a trimmed text: [trimStart] on the first line, [trimEnd]
    on the last one ([trim_join] below). *)
Definition trimEnds (ls : list jsstring) : list jsstring :=
  mapLast trimEnd (mapHead trimStart ls).

(** Line [k] is a list item at least as deep as [ci], as deep, or deeper. *)
Definition inBlock (doc : document) (ci k : nat) : Prop :=
  listItemRegex (getLine doc k) = true
  ∧ ci ≤ getIndentationLevel (getLine doc k).

Definition isPeer (doc : document) (ci k : nat) : Prop :=
  listItemRegex (getLine doc k) = true
  ∧ getIndentationLevel (getLine doc k) = ci.

Definition isDeep (doc : document) (ci k : nat) : Prop :=
  listItemRegex (getLine doc k) = true
  ∧ ci < getIndentationLevel (getLine doc k).

(** The peers the loop of lines 231-289 stops at, in the order it meets
    them: the recursion of [peerLoop] with the buckets left out. *)
Fixpoint peerStarts (doc : document) (currentIndent blockEndLine fuel i : nat) : list nat :=
  match fuel with
  | 0 => []
  | S fuel' =>
      if blockEndLine <? i then []
      else if negb (listItemRegex (getLine doc i))
              || negb (getIndentationLevel (getLine doc i) =? currentIndent)
      then peerStarts doc currentIndent blockEndLine fuel' (S i)
      else i :: peerStarts doc currentIndent blockEndLine fuel'
                  (S (peerTreeEndLine doc i))
  end.

Definition peers (doc : document) (clickedLineNumber : nat) : list nat :=
  peerStarts doc (getIndentationLevel (getLine doc clickedLineNumber))
    (blockEndLine doc clickedLineNumber)
    (S (blockEndLine doc clickedLineNumber) - blockStartLine doc clickedLineNumber)
    (blockStartLine doc clickedLineNumber).

(** The line numbers of the subtree of the peer at line [a]. *)
Definition span (doc : document) (a : nat) : list nat :=
  seq a (S (peerTreeEndLine doc a) - a).

(** The bucket of the peer at line [a]: [true] for ticked. *)
Definition bucketOf (doc : document) (clickedLineNumber a : nat) : bool :=
  (peerItem doc clickedLineNumber (isNowTicked doc clickedLineNumber) a).1.

(** The line numbers of the region in the order of the new text: the
    subtrees of the unticked peers, then those of the ticked ones. *)
Definition newOrder (doc : document) (clickedLineNumber : nat) : list nat :=
  let ps := peers doc clickedLineNumber in
  concat (map (span doc)
            (filter (λ a, bucketOf doc clickedLineNumber a = false) ps
             ++ filter (λ a, bucketOf doc clickedLineNumber a = true) ps)).

(** Line [k] as the new text holds it: the clicked line with its checkbox
    flipped, every other line as it is. *)
Definition newLine (doc : document) (clickedLineNumber k : nat) : jsstring :=
  if k =? clickedLineNumber
  then toggle (isNowTicked doc clickedLineNumber) (getLine doc k)
  else getLine doc k.

(** What line 257 puts after a line. *)
Definition terminator (doc : document) (k : nat) : jsstring :=
  if k =? lineCount doc - 1 then [] else [LF].

(** The lines of the replaced range, [blockStartLine] to
    [overallBlockEndLine]. *)
Definition regionIndices (doc : document) (clickedLineNumber : nat) : list nat :=
  seq (blockStartLine doc clickedLineNumber)
      (S (overallBlockEndLine doc clickedLineNumber)
       - blockStartLine doc clickedLineNumber).

Definition regionLines (doc : document) (clickedLineNumber : nat) : list jsstring :=
  map (getLine doc) (regionIndices doc clickedLineNumber).

(** The subtrees chain: each starts where the one before ends. *)
Fixpoint chain (doc : document) (ci a : nat) (starts : list nat) (e : nat) : Prop :=
  match starts with
  | [] => a = e
  | x :: r =>
      x = a ∧ isPeer doc ci x
      ∧ (∀ k, x < k ≤ peerTreeEndLine doc x → isDeep doc ci k)
      ∧ chain doc ci (S (peerTreeEndLine doc x)) r e
  end.

(** A text without the line break at its end, if it has one. *)
Definition stripLF (s : jsstring) : jsstring :=
  if endsWithLF s then sliceInit s else s.

(** Two texts that differ at most by a line break at the end. *)
Definition equalUpToTrailingLF (a b : jsstring) : Prop :=
  stripLF a = stripLF b.

#[global] Instance wf_doc_dec (doc : document) : Decision (wf_doc doc).
Proof. unfold wf_doc. apply _. Defined.

(** ** Buffers used as examples *)

Definition basicExample : document :=
  [js "- [ ] Buy milk"; js "- [ ] Get gas"; js "- [x] Bread"].

(** The buffers on which a block that ends the file is moved up. *)
Definition lastLineExample : document :=
  [js "- [ ] a"; js "- [x] b"; js "- [x] c"].

Definition lastSubtreeExample : document :=
  [js "- [x] a"; js "- [x] b"; js "  - d"].

(** A file with [checkbox-sort: false] in its front matter and an empty
    bullet between an enable marker and the clicked item. *)
Definition emptyBulletExample : document :=
  [js "---"; js "checkbox-sort: false"; js "---";
   js "%%checkbox-sort: true%%"; js "- "; js "- [ ] a"].

Definition frontmatterOff : frontmatter :=
  Some {[ js "checkbox-sort" := JSBoolean false ]}.

(** A checked box with a capital letter: ticked for the editor, not for
    [tickedCheckboxRegex], and with nothing for [replace] to find. *)
Definition capitalExample : document := [js "- [X] done"].

Definition interiorExample : document :=
  [js "# Tasks"; js "- [ ] a"; js "- [x] b"; js "- [x] c"; js "tail"].

(** ** Further notions *)

(** A list item whose bullet is followed by the box [p]:
    [tickedCheckboxRegex] is [hasCheckbox] for the box "[x]". *)
Definition hasCheckbox (p l : jsstring) : bool :=
  match trimStart l with
  | b :: w :: rest => isBullet b && isWhiteSpace w && startsWith p (trimStart rest)
  | _ => false
  end.

(** The token a found marker stands for. *)
Definition markerOf (b : bool) : jsstring :=
  if b then enableMarker else disableMarker.

Definition sourceOf (b : bool) : settingSource :=
  if b then ListMarkerEnable else ListMarkerDisable.

(** ** Loading and saving the settings, lines 10-13, 79-85 and 366-382

    [this.settings] is a plain object.  The data file of the plugin holds
    an object or nothing ([loadData] then gives [null]). *)

Definition defaultSettingsObject : gmap jsstring jsvalue :=
  {[ js "enableGlobalCheckboxSort" := JSBoolean true;
     js "debugMode" := JSBoolean false ]}.

(** [Object.assign(target, ...sources)]: the own properties of every source
    that is an object are copied in turn, later ones over earlier ones; a
    [null] source is skipped. *)
Definition objectAssign (target : gmap jsstring jsvalue)
    (sources : list (option (gmap jsstring jsvalue))) : gmap jsstring jsvalue :=
  foldl (λ t s, match s with Some o => o ∪ t | None => t end) target sources.

(** [loadSettings]: [Object.assign({}, DEFAULT_SETTINGS, await this.loadData())]. *)
Definition loadSettings (data : option (gmap jsstring jsvalue)) : gmap jsstring jsvalue :=
  objectAssign ∅ [Some defaultSettingsObject; data].

(** [saveSettings]: what [saveData(this.settings)] leaves in the data file. *)
Definition saveSettings (s : gmap jsstring jsvalue) : option (gmap jsstring jsvalue) :=
  Some s.

(** The two toggles of the settings tab: the assignment of [onChange]. *)
Definition setDebugMode (value : bool) (s : gmap jsstring jsvalue) : gmap jsstring jsvalue :=
  <[ js "debugMode" := JSBoolean value ]> s.

Definition setEnableGlobalCheckboxSort (value : bool) (s : gmap jsstring jsvalue) : gmap jsstring jsvalue :=
  <[ js "enableGlobalCheckboxSort" := JSBoolean value ]> s.

(** The settings as the handler reads them, for an object whose two entries
    are booleans. *)
Definition settingsRecord (s : gmap jsstring jsvalue) : CheckboxSortSettings :=
  {| enableGlobalCheckboxSort := toBoolean (getProperty s (js "enableGlobalCheckboxSort"));
     debugMode := toBoolean (getProperty s (js "debugMode")) |}.

(** * Properties *)

(** ** White space *)

Lemma isBullet_not_space c : isBullet c = true → isWhiteSpace c = false.
Proof.
  unfold isBullet. intros H.
  apply orb_prop in H as [H|H]; [apply orb_prop in H as [H|H]|];
    apply N.eqb_eq in H; subst c; reflexivity.
Qed.

Lemma leadingSpaces_trimStart s : leadingSpaces s ++ trimStart s = s.
Proof.
  induction s as [|c s IH]; [reflexivity|]. simpl.
  destruct (isWhiteSpace c); simpl; [by rewrite IH|reflexivity].
Qed.

Lemma leadingSpaces_spaces s : Forall (λ c, isWhiteSpace c = true) (leadingSpaces s).
Proof.
  induction s as [|c s IH]; simpl; [constructor|].
  destruct (isWhiteSpace c) eqn:Hc; constructor; assumption.
Qed.

Lemma trimStart_cons_inv s c r : trimStart s = c :: r → isWhiteSpace c = false.
Proof.
  induction s as [|d s IH]; simpl; [discriminate|].
  destruct (isWhiteSpace d) eqn:Hd; [exact IH|]. intros [= <- _]. exact Hd.
Qed.

Lemma trimStart_solid_head c r : isWhiteSpace c = false → trimStart (c :: r) = c :: r.
Proof. intros H. simpl. by rewrite H. Qed.

Lemma trimStart_idemp s : trimStart (trimStart s) = trimStart s.
Proof.
  destruct (trimStart s) as [|c r] eqn:E; [reflexivity|].
  apply trimStart_solid_head. eapply trimStart_cons_inv, E.
Qed.

Lemma trimStart_app_solid a b : solid a → trimStart (a ++ b) = trimStart a ++ b.
Proof.
  unfold solid. induction a as [|c a IH]; simpl; [done|].
  destruct (isWhiteSpace c); [exact IH|reflexivity].
Qed.

Lemma trimStart_app_spaces a b : trimStart a = [] → trimStart (a ++ b) = trimStart b.
Proof.
  induction a as [|c a IH]; simpl; [done|].
  destruct (isWhiteSpace c); [exact IH|discriminate].
Qed.

Lemma solid_app_l a b : solid a → solid (a ++ b).
Proof.
  intros H. unfold solid. rewrite trimStart_app_solid by done.
  intros E. apply app_eq_nil in E as [E _]. exact (H E).
Qed.

Lemma solid_trimStart s : solid s → solid (trimStart s).
Proof. unfold solid. by rewrite trimStart_idemp. Qed.

Lemma solid_nonempty s : solid s → s ≠ [].
Proof. intros H ->. by apply H. Qed.

Lemma trimEnd_cons c s :
  trimEnd (c :: s) =
    match trimEnd s with
    | [] => if isWhiteSpace c then [] else [c]
    | t => c :: t
    end.
Proof. reflexivity. Qed.

Lemma trimEnd_nil_iff s : trimEnd s = [] ↔ trimStart s = [].
Proof.
  induction s as [|c s IH]; [done|]. rewrite trimEnd_cons. simpl.
  destruct (isWhiteSpace c) eqn:Hc.
  - rewrite <-IH. destruct (trimEnd s); done.
  - destruct (trimEnd s); done.
Qed.

Lemma trimEnd_solid s : solid s → trimEnd s ≠ [].
Proof. unfold solid. by rewrite trimEnd_nil_iff. Qed.

Lemma trimEnd_app_solid a b : solid b → trimEnd (a ++ b) = a ++ trimEnd b.
Proof.
  intros Hb. apply trimEnd_solid in Hb.
  induction a as [|c a IH]; [reflexivity|].
  rewrite <-app_comm_cons, trimEnd_cons, IH.
  destruct (a ++ trimEnd b) eqn:E; [|by rewrite <-E].
  apply app_eq_nil in E as [_ E]. done.
Qed.

Lemma trimEnd_app_spaces a b : trimStart b = [] → trimEnd (a ++ b) = trimEnd a.
Proof.
  intros Hb. apply trimEnd_nil_iff in Hb.
  induction a as [|c a IH]; [by rewrite app_nil_l|].
  by rewrite <-app_comm_cons, !trimEnd_cons, IH.
Qed.

Lemma trimEnd_snoc_LF s : trimEnd (s ++ [LF]) = trimEnd s.
Proof. by apply trimEnd_app_spaces. Qed.

Lemma trimEnd_idemp s : trimEnd (trimEnd s) = trimEnd s.
Proof.
  induction s as [|c s IH]; [reflexivity|]. rewrite trimEnd_cons.
  destruct (trimEnd s) as [|d t] eqn:E.
  - destruct (isWhiteSpace c) eqn:Hc; [reflexivity|].
    rewrite trimEnd_cons. simpl. by rewrite Hc.
  - rewrite trimEnd_cons, IH. reflexivity.
Qed.

Lemma trimStart_trimEnd s : trimStart (trimEnd s) = trimEnd (trimStart s).
Proof.
  induction s as [|c s IH]; [reflexivity|]. rewrite trimEnd_cons. simpl.
  destruct (isWhiteSpace c) eqn:Hc.
  - rewrite <-IH. destruct (trimEnd s) as [|d t] eqn:E; [reflexivity|].
    simpl. by rewrite Hc.
  - rewrite trimEnd_cons.
    destruct (trimEnd s) as [|d t] eqn:E; simpl; by rewrite Hc.
Qed.

Lemma trim_trimStart s : trim (trimStart s) = trim s.
Proof. unfold trim. by rewrite trimStart_idemp. Qed.

Lemma trim_trimEnd s : trim (trimEnd s) = trim s.
Proof. unfold trim. by rewrite trimStart_trimEnd, trimEnd_idemp. Qed.

Lemma trim_idemp s : trim (trim s) = trim s.
Proof. unfold trim at 2. by rewrite trim_trimEnd, trim_trimStart. Qed.

Lemma trim_snoc_LF s : trim (s ++ [LF]) = trim s.
Proof.
  unfold trim. destruct (trimStart s) as [|c r] eqn:E.
  - by rewrite trimStart_app_spaces.
  - rewrite trimStart_app_solid by (unfold solid; congruence).
    rewrite E. apply trimEnd_snoc_LF.
Qed.

(** A solid string is known from what [trimStart] and [trimEnd] leave. *)
Lemma solid_eq x y :
  solid x → trimStart x = trimStart y → trimEnd x = trimEnd y → x = y.
Proof.
  intros Hx Hs He.
  assert (solid y) as Hy by (unfold solid; by rewrite <-Hs).
  rewrite <-(leadingSpaces_trimStart x), <-(leadingSpaces_trimStart y) in He.
  rewrite !trimEnd_app_solid in He by by apply solid_trimStart.
  rewrite <-Hs in He. apply app_inv_tail in He.
  by rewrite <-(leadingSpaces_trimStart x), <-(leadingSpaces_trimStart y), He, Hs.
Qed.

Lemma listItem_solid l : listItemRegex l = true → solid l.
Proof. unfold listItemRegex, solid. by destruct (trimStart l). Qed.

(** ** The checkbox flip *)

Lemma startsWith_app p s : startsWith p s = true → s = p ++ drop (length p) s.
Proof.
  revert s. induction p as [|a p IH]; intros s; [reflexivity|].
  destruct s as [|b s]; simpl; [discriminate|].
  intros H. apply andb_prop in H as [Hab Hp]. apply N.eqb_eq in Hab as ->.
  f_equal. by apply IH.
Qed.

Lemma replace_cons p r c s :
  startsWith p (c :: s) = false → replace p r (c :: s) = c :: replace p r s.
Proof. intros H. simpl replace. simpl in H. by rewrite H. Qed.

Lemma replace_nil p r : replace p r [] = [] ∨ startsWith p [] = true.
Proof. destruct p; [by right|by left]. Qed.

Lemma toggle_cases b s :
  toggle b s = s
  ∨ ∃ u v, s = u ++ (if b then js "[ ]" else js "[x]") ++ v
           ∧ toggle b s = u ++ (if b then js "[x]" else js "[ ]") ++ v.
Proof.
  unfold toggle.
  assert (∀ p r, replace p r s = s ∨
    ∃ u v, s = u ++ p ++ v ∧ replace p r s = u ++ r ++ v) as H.
  { intros p r. induction s as [|c s IH].
    - destruct (startsWith p []) eqn:E.
      + right. exists [], []. destruct p; [|discriminate]. simpl.
        by rewrite app_nil_r.
      + left. destruct p; [discriminate|reflexivity].
    - destruct (startsWith p (c :: s)) eqn:E.
      + right. exists [], (drop (length p) (c :: s)). split.
        * by apply startsWith_app.
        * simpl replace. simpl in E. by rewrite E.
      + rewrite replace_cons by done. destruct IH as [->|(u & v & Hs & ->)].
        * by left.
        * right. exists (c :: u), v. by rewrite Hs at 1. }
  destruct b; apply H.
Qed.

Lemma toggle_solid b s : solid s → solid (toggle b s).
Proof.
  intros Hs. destruct (toggle_cases b s) as [->|(u & v & -> & ->)]; [done|].
  unfold solid in *. destruct (trimStart u) as [|c r] eqn:Eu.
  - rewrite trimStart_app_spaces by done. by destruct b.
  - rewrite trimStart_app_solid by (unfold solid; congruence).
    rewrite Eu. done.
Qed.

Lemma toggle_no_LF b s : LF ∉ s → LF ∉ toggle b s.
Proof.
  intros Hs. destruct (toggle_cases b s) as [->|(u & v & -> & ->)]; [done|].
  rewrite !elem_of_app in Hs. rewrite !elem_of_app.
  intros [H|[H|H]]; [tauto| |tauto].
  destruct b; repeat (apply elem_of_cons in H as [H|H]; [discriminate H|]);
    by apply elem_of_nil in H.
Qed.

Lemma trimEnd_bracket_ne (b : bool) (u v : jsstring) :
  trimEnd (u ++ (if b then js "[ ]" else js "[x]") ++ v)
  ≠ trimEnd (u ++ (if b then js "[x]" else js "[ ]") ++ v).
Proof.
  assert (∀ w, solid (93%N :: w)) as Hs by (intros w; unfold solid; done).
  assert (∀ c d w, trimEnd (u ++ 91%N :: c :: 93%N :: w)
     = trimEnd (u ++ 91%N :: d :: 93%N :: w) → c = d) as H.
  { intros c d w.
    replace (u ++ 91%N :: c :: 93%N :: w)
      with ((u ++ [91%N; c]) ++ 93%N :: w) by (by rewrite <-app_assoc).
    replace (u ++ 91%N :: d :: 93%N :: w)
      with ((u ++ [91%N; d]) ++ 93%N :: w) by (by rewrite <-app_assoc).
    rewrite !trimEnd_app_solid by apply Hs.
    intros E. apply app_inj_1 in E as [E _]; [|by rewrite !length_app].
    apply app_inv_head in E. congruence. }
  destruct b; simpl; intros E; apply H in E; discriminate E.
Qed.

Lemma trimEnd_toggle_inv b s : trimEnd (toggle b s) = trimEnd s → toggle b s = s.
Proof.
  destruct (toggle_cases b s) as [->|(u & v & -> & ->)]; [done|].
  intros E. symmetry in E. by apply trimEnd_bracket_ne in E.
Qed.

Lemma trim_toggle_inv b s : trim (toggle b s) = trim s → toggle b s = s.
Proof.
  destruct (toggle_cases b s) as [->|(u & v & Hs & Ht)]; [done|].
  rewrite Ht. rewrite Hs at 1 2. unfold trim. intros E. exfalso.
  destruct (trimStart u) as [|c r] eqn:Eu.
  - rewrite !(trimStart_app_spaces u) in E by done.
    assert (∀ w, trimStart ((if b then js "[x]" else js "[ ]") ++ w)
                 = [] ++ (if b then js "[x]" else js "[ ]") ++ w) as E1
      by (by destruct b).
    assert (∀ w, trimStart ((if b then js "[ ]" else js "[x]") ++ w)
                 = [] ++ (if b then js "[ ]" else js "[x]") ++ w) as E2
      by (by destruct b).
    rewrite E1, E2 in E. symmetry in E. by apply trimEnd_bracket_ne in E.
  - rewrite !(trimStart_app_solid u) in E by (unfold solid; congruence).
    symmetry in E. by apply trimEnd_bracket_ne in E.
Qed.

(** ** Lines and line breaks *)

Lemma join_cons l ls : ls ≠ [] → join (l :: ls) = l ++ LF :: join ls.
Proof. by destruct ls. Qed.

Lemma split_nonempty s : split s ≠ [].
Proof.
  destruct s as [|c s]; simpl; [done|].
  destruct (c =? LF)%N; [done|]. by destruct (split s).
Qed.

Lemma join_split s : join (split s) = s.
Proof.
  induction s as [|c s IH]; [reflexivity|]. simpl.
  pose proof (split_nonempty s) as Hne.
  destruct (split s) as [|l ls] eqn:E; [done|].
  destruct (c =? LF)%N eqn:Ec.
  - apply N.eqb_eq in Ec as ->. rewrite join_cons by done. by rewrite IH.
  - rewrite <-IH. by destruct ls.
Qed.

Lemma split_no_LF l : LF ∉ l → split l = [l].
Proof.
  induction l as [|c l IH]; [reflexivity|]. intros H.
  rewrite not_elem_of_cons in H. destruct H as [Hc Hl]. simpl.
  destruct (c =? LF)%N eqn:Ec; [apply N.eqb_eq in Ec; congruence|].
  by rewrite IH.
Qed.

Lemma split_line l r : LF ∉ l → split (l ++ LF :: r) = l :: split r.
Proof.
  induction l as [|c l IH]; intros H.
  - simpl. reflexivity.
  - rewrite not_elem_of_cons in H. destruct H as [Hc Hl].
    rewrite <-app_comm_cons. simpl.
    destruct (c =? LF)%N eqn:Ec; [apply N.eqb_eq in Ec; congruence|].
    by rewrite IH.
Qed.

Lemma split_join ls : ls ≠ [] → Forall (λ l, LF ∉ l) ls → split (join ls) = ls.
Proof.
  induction ls as [|l ls IH]; [done|]. intros _ H.
  apply Forall_cons in H as [Hl Hls].
  destruct ls as [|l' ls]; [by apply split_no_LF|].
  rewrite join_cons by done. rewrite split_line by done. f_equal. by apply IH.
Qed.

Lemma join_inj a b :
  a ≠ [] → b ≠ [] → Forall (λ l, LF ∉ l) a → Forall (λ l, LF ∉ l) b →
  join a = join b → a = b.
Proof.
  intros Ha Hb Fa Fb E.
  by rewrite <-(split_join a), <-(split_join b), E.
Qed.

Lemma unlines_cons l ls : unlines (l :: ls) = l ++ LF :: unlines ls.
Proof. unfold unlines. simpl. by rewrite <-app_assoc. Qed.

Lemma unlines_app a b : unlines (a ++ b) = unlines a ++ unlines b.
Proof. unfold unlines. by rewrite map_app, concat_app. Qed.

Lemma unlines_join ls : ls ≠ [] → unlines ls = join ls ++ [LF].
Proof.
  induction ls as [|l ls IH]; [done|]. intros _. rewrite unlines_cons.
  destruct ls as [|l' ls]; [reflexivity|].
  rewrite join_cons by done. rewrite IH by done. by rewrite <-app_assoc.
Qed.

Lemma join_app a b : a ≠ [] → b ≠ [] → join (a ++ b) = unlines a ++ join b.
Proof.
  intros Ha Hb. induction a as [|l a IH]; [done|].
  rewrite unlines_cons, <-app_comm_cons.
  destruct a as [|l' a].
  - simpl app. rewrite join_cons by done. by rewrite <-app_assoc.
  - rewrite join_cons by done. rewrite IH by done. by rewrite <-app_assoc.
Qed.

Lemma length_unlines ls : length (unlines ls) = sum_list (map (λ l, S (length l)) ls).
Proof.
  induction ls as [|l ls IH]; [reflexivity|].
  rewrite unlines_cons, length_app. simpl. rewrite IH. lia.
Qed.

(** ** Trimming a text made of lines *)

Lemma trimStart_suffix s : ∃ u, s = u ++ trimStart s.
Proof. exists (leadingSpaces s). by rewrite leadingSpaces_trimStart. Qed.

Lemma trimEnd_prefix s : ∃ t, s = trimEnd s ++ t.
Proof.
  induction s as [|c s [t IH]]; [by exists []|]. rewrite trimEnd_cons.
  destruct (trimEnd s) as [|d r] eqn:E.
  - destruct (isWhiteSpace c); [by exists (c :: s)|].
    exists s. reflexivity.
  - exists t. rewrite <-app_comm_cons. by rewrite <-IH.
Qed.

Lemma trimStart_no_LF s : LF ∉ s → LF ∉ trimStart s.
Proof.
  destruct (trimStart_suffix s) as [u E]. rewrite E at 1.
  rewrite elem_of_app. tauto.
Qed.

Lemma trimEnd_no_LF s : LF ∉ s → LF ∉ trimEnd s.
Proof.
  destruct (trimEnd_prefix s) as [u E]. rewrite E at 1.
  rewrite elem_of_app. tauto.
Qed.

Lemma solid_trimEnd s : solid s → solid (trimEnd s).
Proof.
  intros H. unfold solid. rewrite trimStart_trimEnd.
  by apply trimEnd_solid, solid_trimStart.
Qed.

Lemma mapLast_nonempty f ls : ls ≠ [] → mapLast f ls ≠ [].
Proof. destruct ls as [|l [|l' ls]]; done. Qed.

Lemma mapLast_cons f l ls : ls ≠ [] → mapLast f (l :: ls) = l :: mapLast f ls.
Proof. by destruct ls. Qed.

Lemma length_mapLast f ls : length (mapLast f ls) = length ls.
Proof.
  induction ls as [|l ls IH]; [done|].
  destruct ls as [|l' ls]; [done|]. rewrite mapLast_cons by done.
  simpl in *. by rewrite IH.
Qed.

Lemma lookup_mapLast f ls k :
  mapLast f ls !! k = (if decide (S k = length ls) then f else id) <$> ls !! k.
Proof.
  revert k. induction ls as [|l ls IH]; intros k; [done|].
  destruct ls as [|l' ls].
  - destruct k as [|k]; repeat case_decide; simpl in *; try lia; done.
  - rewrite mapLast_cons by done. destruct k as [|k].
    + repeat case_decide; simpl in *; try lia; done.
    + rewrite !lookup_cons. rewrite IH.
      repeat case_decide; simpl in *; try lia; done.
Qed.

Lemma lookup_mapHead f ls k :
  mapHead f ls !! k = (if decide (k = 0) then f else id) <$> ls !! k.
Proof.
  destruct ls as [|l ls]; [done|]. destruct k; simpl; [done|].
  by destruct (ls !! k).
Qed.

Lemma Forall_mapLast (P : jsstring → Prop) f ls :
  (∀ l, P l → P (f l)) → Forall P ls → Forall P (mapLast f ls).
Proof.
  intros Hf. induction 1 as [|l ls Hl Hls IH]; [constructor|].
  destruct ls as [|l' ls]; [constructor; auto|].
  rewrite mapLast_cons by done. constructor; auto.
Qed.

Lemma Forall_mapHead (P : jsstring → Prop) f ls :
  (∀ l, P l → P (f l)) → Forall P ls → Forall P (mapHead f ls).
Proof. intros Hf. destruct 1; constructor; auto. Qed.

Lemma solid_join l ls : solid l → solid (join (l :: ls)).
Proof.
  intros H. destruct ls; [done|]. rewrite join_cons by done. by apply solid_app_l.
Qed.

Lemma trimStart_join ls :
  Forall solid ls → trimStart (join ls) = join (mapHead trimStart ls).
Proof.
  destruct 1 as [|l ls Hl Hls]; [done|]. destruct ls as [|l' ls]; [done|].
  simpl mapHead. rewrite !join_cons by done. by apply trimStart_app_solid.
Qed.

Lemma trimEnd_join ls :
  Forall solid ls → trimEnd (join ls) = join (mapLast trimEnd ls).
Proof.
  induction 1 as [|l ls Hl Hls IH]; [done|]. destruct ls as [|l' ls]; [done|].
  rewrite mapLast_cons by done.
  rewrite (join_cons l (l' :: ls)) by done.
  rewrite (join_cons l (mapLast trimEnd (l' :: ls)))
    by by apply mapLast_nonempty.
  assert (solid (join (l' :: ls))) as Hj
    by (apply solid_join; by apply Forall_cons in Hls as [? _]).
  rewrite trimEnd_app_solid.
  - rewrite trimEnd_cons, IH. apply trimEnd_solid in Hj. rewrite IH in Hj.
    by destruct (join (mapLast trimEnd (l' :: ls))).
  - unfold solid. simpl. exact Hj.
Qed.

Lemma trim_join ls : Forall solid ls → trim (join ls) = join (trimEnds ls).
Proof.
  intros H. unfold trim, trimEnds. rewrite trimStart_join by done.
  apply trimEnd_join. apply Forall_mapHead; [|done]. apply solid_trimStart.
Qed.

Lemma lookup_trimEnds ls k :
  trimEnds ls !! k =
    (λ l, (if decide (S k = length ls) then trimEnd else id)
            ((if decide (k = 0) then trimStart else id) l)) <$> ls !! k.
Proof.
  unfold trimEnds. rewrite lookup_mapLast, lookup_mapHead.
  rewrite <-option_fmap_compose.
  replace (length (mapHead trimStart ls)) with (length ls) by by destruct ls.
  done.
Qed.

Lemma trimEnds_nonempty ls : ls ≠ [] → trimEnds ls ≠ [].
Proof. intros H. unfold trimEnds. apply mapLast_nonempty. by destruct ls. Qed.

Lemma trimEnds_no_LF ls :
  Forall (λ l, LF ∉ l) ls → Forall (λ l, LF ∉ l) (trimEnds ls).
Proof.
  intros H. unfold trimEnds. apply Forall_mapLast; [apply trimEnd_no_LF|].
  apply Forall_mapHead; [apply trimStart_no_LF|done].
Qed.

Lemma length_trimEnds ls : length (trimEnds ls) = length ls.
Proof. unfold trimEnds. rewrite length_mapLast. by destruct ls. Qed.

(** ** Cancelling in a permutation *)

Lemma perm_cancel_at {A} (a b : list A) j :
  a ≡ₚ b → (∀ k, k ≠ j → a !! k = b !! k) → a !! j = b !! j.
Proof.
  intros Hp Hk. pose proof (Permutation_length Hp) as Hlen.
  destruct (a !! j) as [x|] eqn:Ea.
  2: { symmetry. apply lookup_ge_None. apply lookup_ge_None in Ea. lia. }
  destruct (b !! j) as [y|] eqn:Eb.
  2: { apply lookup_ge_None in Eb. apply lookup_lt_Some in Ea. lia. }
  assert (take j a = take j b) as Ht.
  { apply list_eq. intros i. destruct (decide (i < j)).
    - rewrite !lookup_take_lt by done. apply Hk. lia.
    - rewrite !lookup_take_ge by lia. done. }
  assert (drop (S j) a = drop (S j) b) as Hd.
  { apply list_eq. intros i. rewrite !lookup_drop. apply Hk. lia. }
  rewrite <-(take_drop_middle a j x Ea), <-(take_drop_middle b j y Eb) in Hp.
  rewrite Ht, Hd in Hp. apply Permutation_app_inv_l in Hp.
  apply (Permutation_app_inv_r _ [x] [y]) in Hp.
  by apply Permutation_singleton_inj in Hp as ->.
Qed.

(** ** When trimming hides nothing

    Two texts made of solid lines, one a rearrangement of the lines of the
    other with one line possibly flipped: if they agree once trimmed, they
    have the same lines. *)
Lemma trimmed_lines_eq (n o : list jsstring) c (tg : jsstring → jsstring) :
  o ≠ [] →
  Forall solid o → Forall (λ l, LF ∉ l) o →
  Forall solid n → Forall (λ l, LF ∉ l) n →
  n ≡ₚ alter tg c o →
  (∀ x, trim (tg x) = trim x → tg x = x) →
  trim (join n) = trim (join o) →
  n = o.
Proof.
  intros Ho So Lo Sn Ln Hp Htg E.
  assert (length n = length o) as Hlen
    by (by rewrite (Permutation_length Hp), length_alter).
  assert (n ≠ []) as Hn by (intros ->; by destruct o).
  assert (trimEnds n = trimEnds o) as Et.
  { rewrite !trim_join in E by done.
    apply join_inj in E; [done|by apply trimEnds_nonempty..| |];
      by apply trimEnds_no_LF. }
  (* the two lists agree line by line, up to what [trimEnds] took away *)
  assert (∀ k x y, n !! k = Some x → o !! k = Some y →
    (if decide (S k = length o) then trimEnd else id)
      ((if decide (k = 0) then trimStart else id) x)
    = (if decide (S k = length o) then trimEnd else id)
      ((if decide (k = 0) then trimStart else id) y)) as Hpt.
  { intros k x y Hx Hy. pose proof (f_equal (.!! k) Et) as Ek. simpl in Ek.
    rewrite !lookup_trimEnds, Hx, Hy, Hlen in Ek. simpl in Ek. congruence. }
  assert (∀ (f : jsstring → jsstring) k,
    (∀ x y, n !! k = Some x → o !! k = Some y → f x = f y) →
    (f <$> n) !! k = (f <$> o) !! k) as Hat.
  { intros f k Hf. rewrite !list_lookup_fmap.
    destruct (n !! k) as [x|] eqn:Ex, (o !! k) as [y|] eqn:Ey; simpl.
    - f_equal. by apply Hf.
    - apply lookup_lt_Some in Ex. apply lookup_ge_None in Ey. lia.
    - apply lookup_lt_Some in Ey. apply lookup_ge_None in Ex. lia.
    - done. }
  (* the flip changed nothing *)
  assert (trim <$> n = trim <$> o) as Etrim.
  { apply list_eq. intros k. apply Hat. intros x y Hx Hy.
    specialize (Hpt k x y Hx Hy). apply (f_equal trim) in Hpt.
    repeat case_decide; simpl in Hpt;
      by rewrite ?trim_trimEnd, ?trim_trimStart in Hpt. }
  assert (alter tg c o = o) as Halt.
  { apply list_eq. intros k. destruct (decide (c = k)) as [<-|];
      [|by rewrite list_lookup_alter_ne].
    rewrite list_lookup_alter_eq.
    destruct (o !! c) as [x|] eqn:Ex; [|done]. simpl. f_equal. apply Htg.
    assert ((trim <$> o) !! c = (trim <$> alter tg c o) !! c) as Ec.
    { apply perm_cancel_at.
      - rewrite <-Etrim. by apply fmap_Permutation.
      - intros k Hk. by rewrite !list_lookup_fmap, list_lookup_alter_ne. }
    rewrite !list_lookup_fmap, list_lookup_alter_eq, Ex in Ec. simpl in Ec.
    congruence. }
  rewrite Halt in Hp.
  (* what trimEnd leaves: known below the first line, cancelled there *)
  assert (trimEnd <$> n = trimEnd <$> o) as EA.
  { assert (∀ k, k ≠ 0 → (trimEnd <$> n) !! k = (trimEnd <$> o) !! k) as Hk.
    { intros k Hk. apply Hat. intros x y Hx Hy.
      specialize (Hpt k x y Hx Hy). apply (f_equal trimEnd) in Hpt.
      repeat case_decide; simpl in Hpt; try lia;
        by rewrite ?trimEnd_idemp in Hpt. }
    apply list_eq. intros k. destruct (decide (k = 0)) as [->|]; [|by apply Hk].
    apply perm_cancel_at; [by apply fmap_Permutation|done]. }
  (* what trimStart leaves: known above the last line, cancelled there *)
  assert (trimStart <$> n = trimStart <$> o) as EB.
  { assert (∀ k, S k ≠ length o →
      (trimStart <$> n) !! k = (trimStart <$> o) !! k) as Hk.
    { intros k Hk. apply Hat. intros x y Hx Hy.
      specialize (Hpt k x y Hx Hy). apply (f_equal trimStart) in Hpt.
      repeat case_decide; simpl in Hpt; try lia;
        by rewrite ?trimStart_idemp in Hpt. }
    apply list_eq. intros k.
    destruct (decide (S k = length o)) as [Hlast|]; [|by apply Hk].
    apply perm_cancel_at; [by apply fmap_Permutation|].
    intros k' Hk'. apply Hk. lia. }
  apply list_eq. intros k.
  pose proof (f_equal (.!! k) EA) as Ea. pose proof (f_equal (.!! k) EB) as Eb.
  simpl in Ea, Eb. rewrite !list_lookup_fmap in Ea, Eb.
  destruct (n !! k) as [x|] eqn:Ex, (o !! k) as [y|] eqn:Ey; simpl in *;
    try done.
  f_equal. apply solid_eq; [|congruence|congruence].
  by eapply (Forall_lookup_1 _ _ _ _ Sn).
Qed.

(** ** The scans *)

Lemma inBlock_cases doc ci k :
  inBlock doc ci k ↔ isPeer doc ci k ∨ isDeep doc ci k.
Proof.
  unfold inBlock, isPeer, isDeep. split.
  - intros [Hli Hge].
    destruct (decide (getIndentationLevel (getLine doc k) = ci));
      [left|right]; split; auto; lia.
  - intros [[Hli Hci]|[Hli Hci]]; split; auto; lia.
Qed.

Lemma isDeep_dec doc ci k : {isDeep doc ci k} + {¬ isDeep doc ci k}.
Proof. unfold isDeep. apply and_dec; [apply bool_eq_dec|apply lt_dec]. Qed.

Lemma getLine_ge doc k : length doc ≤ k → getLine doc k = [].
Proof. intros H. unfold getLine. by rewrite (proj2 (lookup_ge_None doc k) H). Qed.

Lemma getLine_Some doc k l : doc !! k = Some l → getLine doc k = l.
Proof. intros H. unfold getLine. by rewrite H. Qed.

Lemma listItem_lt doc k : listItemRegex (getLine doc k) = true → k < length doc.
Proof.
  intros H. destruct (decide (k < length doc)); [done|].
  rewrite getLine_ge in H by lia. discriminate.
Qed.

Lemma scanUp_spec doc ci n bs hi :
  n ≤ bs → bs ≤ hi → isPeer doc ci bs →
  (∀ k, n ≤ k ≤ hi → inBlock doc ci k) →
  scanUp doc ci n bs ≤ bs
  ∧ isPeer doc ci (scanUp doc ci n bs)
  ∧ (∀ k, scanUp doc ci n bs ≤ k ≤ hi → inBlock doc ci k).
Proof.
  revert bs. induction n as [|i IH]; intros bs Hn Hhi Hp Hin; simpl.
  - split; [lia|]. split; [done|]. intros k Hk. apply Hin. lia.
  - destruct (listItemRegex (getLine doc i)) eqn:Eli; simpl.
    2: { split; [lia|]. split; [done|]. intros k Hk. apply Hin. lia. }
    destruct (getIndentationLevel (getLine doc i) =? ci) eqn:Eeq.
    { apply Nat.eqb_eq in Eeq.
      destruct (IH i) as (H1 & H2 & H3); [lia|lia|by split| |].
      - intros k Hk. destruct (decide (k = i)) as [->|].
        + split; [done|lia].
        + apply Hin. lia.
      - split; [lia|]. done. }
    destruct (getIndentationLevel (getLine doc i) <? ci) eqn:Elt.
    { split; [lia|]. split; [done|]. intros k Hk. apply Hin. lia. }
    apply Nat.eqb_neq in Eeq. apply Nat.ltb_ge in Elt.
    apply IH; [lia|lia|done|].
    intros k Hk. destruct (decide (k = i)) as [->|].
    + split; [done|lia].
    + apply Hin. lia.
Qed.

Lemma scanDown_spec doc ci fuel i be :
  fuel = length doc - i → be < i → i ≤ length doc →
  (∀ k, be < k < i → isDeep doc ci k) →
  ∃ s, scanDown doc ci fuel i be < s ∧ s ≤ length doc
       ∧ be ≤ scanDown doc ci fuel i be
       ∧ (scanDown doc ci fuel i be = be ∨ isPeer doc ci (scanDown doc ci fuel i be))
       ∧ (∀ k, be < k < s → inBlock doc ci k)
       ∧ (∀ k, scanDown doc ci fuel i be < k < s → isDeep doc ci k)
       ∧ (s < length doc → ¬ inBlock doc ci s).
Proof.
  revert i be. induction fuel as [|fuel IH]; intros i be Hf Hbe Hi Hdeep; simpl.
  - exists i. split_and!; try lia; auto.
    + intros k Hk. apply inBlock_cases. right. by apply Hdeep.
  - destruct (listItemRegex (getLine doc i)) eqn:Eli; simpl.
    2: { exists i. split_and!; try lia; auto.
         - intros k Hk. apply inBlock_cases. right. by apply Hdeep.
         - intros _ [H _]. congruence. }
    destruct (getIndentationLevel (getLine doc i) =? ci) eqn:Eeq.
    { apply Nat.eqb_eq in Eeq.
      destruct (IH (S i) i) as (s & H1 & H2 & H3 & H4 & H5 & H6 & H7);
        [lia|lia|lia|intros; lia|].
      exists s. split_and!; try lia; auto.
      - right. destruct H4 as [->|H4]; [by split|done].
      - intros k Hk. destruct (decide (k < i)).
        + apply inBlock_cases. right. apply Hdeep. lia.
        + destruct (decide (k = i)) as [->|]; [split; [done|lia]|].
          apply H5. lia. }
    destruct (getIndentationLevel (getLine doc i) <? ci) eqn:Elt.
    { apply Nat.ltb_lt in Elt. exists i. split_and!; try lia; auto.
      - intros k Hk. apply inBlock_cases. right. by apply Hdeep.
      - intros _ [_ H]. lia. }
    apply Nat.eqb_neq in Eeq. apply Nat.ltb_ge in Elt.
    destruct (IH (S i) be) as (s & H1 & H2 & H3 & H4 & H5 & H6 & H7);
      [lia|lia|lia| |].
    { intros k Hk. destruct (decide (k = i)) as [->|].
      - split; [done|lia].
      - apply Hdeep. lia. }
    exists s. split_and!; try lia; auto.
Qed.

Lemma scanOverall_spec doc ci fuel i e s :
  fuel = length doc - i → i ≤ s → s ≤ length doc →
  (∀ k, i ≤ k < s → inBlock doc ci k) →
  (s < length doc → ¬ inBlock doc ci s) →
  S e = i →
  S (scanOverall doc ci fuel i e) = s.
Proof.
  revert i e. induction fuel as [|fuel IH]; intros i e Hf Hi Hs Hin Hstop He; simpl.
  - lia.
  - destruct (decide (i = s)) as [->|Hne].
    + destruct (listItemRegex (getLine doc s)) eqn:Eli; simpl; [|lia].
      destruct (getIndentationLevel (getLine doc s) <? ci) eqn:Elt; [lia|].
      apply Nat.ltb_ge in Elt. exfalso. apply Hstop; [lia|]. by split.
    + destruct (Hin i) as [Eli Hge]; [lia|]. rewrite Eli. simpl.
      rewrite (proj2 (Nat.ltb_ge _ _) Hge).
      apply IH; try lia; auto. intros k Hk. apply Hin. lia.
Qed.

Lemma scanTree_spec doc ci fuel j e t :
  fuel = length doc - j → j ≤ t → t ≤ length doc →
  (∀ k, j ≤ k < t → isDeep doc ci k) →
  (t < length doc → ¬ isDeep doc ci t) →
  S e = j →
  S (scanTree doc ci fuel j e) = t.
Proof.
  revert j e. induction fuel as [|fuel IH]; intros j e Hf Hj Ht Hin Hstop He; simpl.
  - lia.
  - destruct (decide (j = t)) as [->|Hne].
    + destruct (listItemRegex (getLine doc t)) eqn:Eli; simpl; [|lia].
      destruct (getIndentationLevel (getLine doc t) <=? ci) eqn:Ele; [lia|].
      apply Nat.leb_gt in Ele. exfalso. apply Hstop; [lia|]. by split.
    + destruct (Hin j) as [Eli Hgt]; [lia|]. rewrite Eli. simpl.
      rewrite (proj2 (Nat.leb_gt _ _) Hgt).
      apply IH; try lia; auto. intros k Hk. apply Hin. lia.
Qed.

Lemma scanTree_ge doc ci fuel j e : e ≤ j → e ≤ scanTree doc ci fuel j e.
Proof.
  revert j e. induction fuel as [|fuel IH]; intros j e He; simpl; [lia|].
  destruct (negb _ || _); [lia|].
  specialize (IH (S j) j). lia.
Qed.

Lemma peerTreeEndLine_ge doc i : i ≤ peerTreeEndLine doc i.
Proof. apply scanTree_ge. lia. Qed.

(** The first line from [j] on that is not deeper than [ci]. *)
Lemma first_not_deep doc ci j :
  j ≤ length doc →
  ∃ t, j ≤ t ∧ t ≤ length doc
       ∧ (∀ k, j ≤ k < t → isDeep doc ci k)
       ∧ (t < length doc → ¬ isDeep doc ci t).
Proof.
  intros Hj. remember (length doc - j) as d eqn:Hd.
  revert j Hj Hd. induction d as [|d IH]; intros j Hj Hd.
  - exists j. split_and!; try lia.
  - destruct (isDeep_dec doc ci j) as [Hdeep|Hnot].
    + destruct (IH (S j)) as (t & H1 & H2 & H3 & H4); [lia|lia|].
      exists t. split_and!; try lia; auto.
      intros k Hk. destruct (decide (k = j)) as [->|]; [done|].
      apply H3. lia.
    + exists j. split_and!; try lia. done.
Qed.

Lemma peerTreeEndLine_spec doc ci i :
  isPeer doc ci i →
  ∃ t, S (peerTreeEndLine doc i) = t ∧ i < t ∧ t ≤ length doc
       ∧ (∀ k, i < k < t → isDeep doc ci k)
       ∧ (t < length doc → ¬ isDeep doc ci t).
Proof.
  intros [Hli Hci]. pose proof (listItem_lt _ _ Hli) as Hlt.
  destruct (first_not_deep doc ci (S i)) as (t & H1 & H2 & H3 & H4); [lia|].
  exists t. split_and!; try lia; auto.
  unfold peerTreeEndLine. rewrite Hci. by apply scanTree_spec.
Qed.

(** ** The region around the clicked line *)

Lemma region_facts doc clicked l :
  doc !! clicked = Some l → listItemRegex l = true →
  let ci := getIndentationLevel l in
  let bs := blockStartLine doc clicked in
  let be := blockEndLine doc clicked in
  let oe := overallBlockEndLine doc clicked in
  bs ≤ clicked ∧ clicked ≤ be ∧ be ≤ oe ∧ oe < length doc
  ∧ isPeer doc ci bs ∧ isPeer doc ci be ∧ isPeer doc ci clicked
  ∧ (∀ k, bs ≤ k ≤ oe → inBlock doc ci k)
  ∧ (∀ k, be < k ≤ oe → isDeep doc ci k)
  ∧ (S oe < length doc → ¬ inBlock doc ci (S oe)).
Proof.
  intros Hl Hli ci bs be oe.
  pose proof (getLine_Some _ _ _ Hl) as Hg.
  pose proof (lookup_lt_Some _ _ _ Hl) as Hlt.
  assert (isPeer doc ci clicked) as Hpc by (unfold isPeer; by rewrite Hg).
  destruct (scanUp_spec doc ci clicked clicked clicked) as (U1 & U2 & U3);
    [lia|lia|done| |].
  { intros k Hk. replace k with clicked by lia. apply inBlock_cases. by left. }
  destruct (scanDown_spec doc ci (length doc - S clicked) (S clicked) clicked)
    as (s & D1 & D2 & D3 & D4 & D5 & D6 & D7); [done|lia|lia|intros; lia|].
  assert (bs = scanUp doc ci clicked clicked) as Ebs
    by (unfold bs, blockStartLine; by rewrite Hg).
  assert (be = scanDown doc ci (length doc - S clicked) (S clicked) clicked) as Ebe
    by (unfold be, blockEndLine; by rewrite Hg).
  rewrite <-Ebs in U1, U2, U3. rewrite <-Ebe in D1, D3, D4, D6.
  assert (S oe = s) as Eoe.
  { unfold oe, overallBlockEndLine. rewrite Hg. fold be. fold ci.
    apply scanOverall_spec; try done; try lia.
    intros k Hk. apply inBlock_cases. right. apply D6. lia. }
  split_and!; try lia; try done.
  - destruct D4 as [->|D4]; done.
  - intros k Hk. destruct (decide (k ≤ clicked)); [apply U3; lia|].
    apply D5. lia.
  - intros k Hk. apply D6. lia.
  - rewrite Eoe. done.
Qed.

(** ** The subtrees chain through the region *)

Lemma peerStarts_chain doc ci lo be oe :
  be ≤ oe → oe < length doc →
  (∀ k, lo ≤ k ≤ oe → inBlock doc ci k) →
  (∀ k, be < k ≤ oe → isDeep doc ci k) →
  (S oe < length doc → ¬ inBlock doc ci (S oe)) →
  ∀ fuel i, lo ≤ i → i ≤ be → isPeer doc ci i → S be - i ≤ fuel →
  chain doc ci i (peerStarts doc ci be fuel i) (S oe).
Proof.
  intros Hbe Hoe Hin Hdeep Hstop.
  induction fuel as [|fuel IH]; intros i Hlo Hi Hp Hfuel; [lia|].
  simpl. rewrite (proj2 (Nat.ltb_ge _ _) Hi).
  destruct Hp as [Hli Hci]. rewrite Hli, Hci, Nat.eqb_refl. simpl.
  destruct (peerTreeEndLine_spec doc ci i) as (t & Et & T1 & T2 & T3 & T4);
    [by split|].
  assert (t ≤ S oe) as Ht.
  { destruct (decide (t ≤ S oe)); [done|]. exfalso.
    apply Hstop; [lia|]. apply inBlock_cases. right. apply T3. lia. }
  split_and!; try done.
  { intros k Hk. apply T3. lia. }
  rewrite Et. destruct (decide (t ≤ be)) as [Htb|Htb].
  - apply IH; try lia.
    destruct (proj1 (inBlock_cases doc ci t)) as [Hp|Hd]; [apply Hin; lia|done|].
    exfalso. apply T4; [lia|done].
  - assert (peerStarts doc ci be fuel t = []) as ->.
    { destruct fuel; [done|]. simpl.
      by rewrite (proj2 (Nat.ltb_lt be t)) by lia. }
    simpl. destruct (decide (t = S oe)); [done|]. exfalso.
    apply T4; [lia|]. apply Hdeep. lia.
Qed.

Lemma chain_concat doc ci a starts e :
  chain doc ci a starts e →
  a ≤ e ∧ concat (map (span doc) starts) = seq a (e - a).
Proof.
  revert a. induction starts as [|x r IH]; intros a; simpl.
  - intros ->. split; [lia|]. by rewrite Nat.sub_diag.
  - intros (-> & Hp & Hd & Hr). destruct (IH _ Hr) as [Hle ->].
    pose proof (peerTreeEndLine_ge doc a). split; [lia|].
    unfold span.
    replace (e - a) with ((S (peerTreeEndLine doc a) - a) + (e - S (peerTreeEndLine doc a))) by lia.
    rewrite seq_app. do 2 f_equal. lia.
Qed.

Lemma chain_elem doc ci a starts e x :
  chain doc ci a starts e → x ∈ starts →
  a ≤ x ∧ peerTreeEndLine doc x < e ∧ isPeer doc ci x
  ∧ (∀ k, x < k ≤ peerTreeEndLine doc x → isDeep doc ci k).
Proof.
  revert a. induction starts as [|y r IH]; intros a; simpl.
  - intros _ H. by apply elem_of_nil in H.
  - intros (-> & Hp & Hd & Hr) Hx.
    pose proof (peerTreeEndLine_ge doc a).
    pose proof (proj1 (chain_concat _ _ _ _ _ Hr)).
    apply elem_of_cons in Hx as [->|Hx].
    + split_and!; try done; lia.
    + destruct (IH _ Hr Hx) as (H1 & H2 & H3 & H4). split_and!; try done; lia.
Qed.

(** ** The loop and its buckets *)

Lemma peerLoop_starts doc clicked ci nt be fuel i b :
  peerLoop doc clicked ci nt be fuel i b =
    foldl (λ b a, push (peerItem doc clicked nt a).1 (peerItem doc clicked nt a).2 b)
          b (peerStarts doc ci be fuel i).
Proof.
  revert i b. induction fuel as [|fuel IH]; intros i b; [done|]. simpl.
  destruct (be <? i); [done|].
  destruct (negb _ || negb _); [apply IH|].
  destruct (peerItem doc clicked nt i) as [t d] eqn:E. simpl.
  rewrite IH, E. done.
Qed.

Lemma foldl_push_unticked (f : nat → bool * itemData) l b :
  untickedItemsData (foldl (λ b a, push (f a).1 (f a).2 b) b l)
  = untickedItemsData b ++ map (λ a, (f a).2) (filter (λ a, (f a).1 = false) l).
Proof.
  revert b. induction l as [|a l IH]; intros b; simpl.
  - by rewrite app_nil_r.
  - rewrite IH. rewrite filter_cons. unfold push.
    destruct ((f a).1) eqn:E; simpl; [done|]. by rewrite <-app_assoc.
Qed.

Lemma foldl_push_ticked (f : nat → bool * itemData) l b :
  tickedItemsData (foldl (λ b a, push (f a).1 (f a).2 b) b l)
  = tickedItemsData b ++ map (λ a, (f a).2) (filter (λ a, (f a).1 = true) l).
Proof.
  revert b. induction l as [|a l IH]; intros b; simpl.
  - by rewrite app_nil_r.
  - rewrite IH. rewrite filter_cons. unfold push.
    destruct ((f a).1) eqn:E; simpl; [|done]. by rewrite <-app_assoc.
Qed.

(** The loop needs no more turns than it is given. *)
Lemma peerStarts_fuel doc ci be fuel1 fuel2 i :
  S be - i ≤ fuel1 → S be - i ≤ fuel2 →
  peerStarts doc ci be fuel1 i = peerStarts doc ci be fuel2 i.
Proof.
  revert fuel2 i. induction fuel1 as [|fuel1 IH]; intros fuel2 i H1 H2.
  - destruct fuel2; [done|]. simpl. by rewrite (proj2 (Nat.ltb_lt be i)) by lia.
  - destruct fuel2 as [|fuel2].
    + simpl. by rewrite (proj2 (Nat.ltb_lt be i)) by lia.
    + simpl. destruct (be <? i) eqn:E; [done|]. apply Nat.ltb_ge in E.
      pose proof (peerTreeEndLine_ge doc i).
      destruct (negb _ || negb _); [apply IH; lia|]. f_equal. apply IH; lia.
Qed.

Lemma peerLoop_fuel doc clicked ci nt be fuel1 fuel2 i b :
  S be - i ≤ fuel1 → S be - i ≤ fuel2 →
  peerLoop doc clicked ci nt be fuel1 i b = peerLoop doc clicked ci nt be fuel2 i b.
Proof.
  intros H1 H2. rewrite !peerLoop_starts.
  by rewrite (peerStarts_fuel doc ci be fuel1 fuel2 i).
Qed.

Lemma sortedBuckets_unticked doc clicked :
  untickedItemsData (sortedBuckets doc clicked)
  = map (λ a, (peerItem doc clicked (isNowTicked doc clicked) a).2)
        (filter (λ a, bucketOf doc clicked a = false) (peers doc clicked)).
Proof.
  unfold sortedBuckets. rewrite peerLoop_starts.
  by rewrite (foldl_push_unticked (peerItem doc clicked (isNowTicked doc clicked))).
Qed.

Lemma sortedBuckets_ticked doc clicked :
  tickedItemsData (sortedBuckets doc clicked)
  = map (λ a, (peerItem doc clicked (isNowTicked doc clicked) a).2)
        (filter (λ a, bucketOf doc clicked a = true) (peers doc clicked)).
Proof.
  unfold sortedBuckets. rewrite peerLoop_starts.
  by rewrite (foldl_push_ticked (peerItem doc clicked (isNowTicked doc clicked))).
Qed.

(** ** The text of a subtree *)

Lemma appendLines_spec doc n k acc :
  appendLines doc n k acc =
    acc ++ concat (map (λ j, getLine doc j ++ terminator doc j) (seq k n)).
Proof.
  revert k acc. induction n as [|n IH]; intros k acc; simpl.
  - by rewrite app_nil_r.
  - rewrite IH. unfold terminator at 2. by rewrite <-!app_assoc.
Qed.

Lemma peerTreeText_spec doc a :
  peerTreeText doc a (peerTreeEndLine doc a) =
    concat (map (λ j, getLine doc j ++ terminator doc j) (span doc a)).
Proof. unfold peerTreeText. by rewrite appendLines_spec. Qed.

Lemma updateClicked_line nt l rest :
  LF ∉ l → updateClicked nt (l ++ LF :: rest) = toggle nt l ++ LF :: rest.
Proof.
  intros Hl. unfold updateClicked. rewrite split_line by done.
  rewrite join_cons by apply split_nonempty. by rewrite join_split.
Qed.

Lemma updateClicked_last nt l :
  LF ∉ l → updateClicked nt l = toggle nt l.
Proof. intros Hl. unfold updateClicked. by rewrite split_no_LF. Qed.

Lemma wf_getLine doc k : wf_doc doc → LF ∉ getLine doc k.
Proof.
  intros [_ Hwf]. unfold getLine. destruct (doc !! k) as [l|] eqn:E; simpl.
  - by eapply (Forall_lookup_1 _ _ _ _ Hwf).
  - apply not_elem_of_nil.
Qed.

Lemma item_text doc clicked ci a :
  wf_doc doc →
  isPeer doc ci clicked → isPeer doc ci a →
  (∀ k, a < k ≤ peerTreeEndLine doc a → isDeep doc ci k) →
  peerTreeEndLine doc a < length doc →
  text (peerItem doc clicked (isNowTicked doc clicked) a).2 =
    concat (map (λ k, newLine doc clicked k ++ terminator doc k) (span doc a)).
Proof.
  intros Hwf Hpc Hpa Hdeep Hlen.
  assert (∀ k, k ∈ span doc a → k ≠ a → k ≠ clicked) as Hne.
  { intros k Hk Hka ->. unfold span in Hk. apply elem_of_seq in Hk.
    destruct (Hdeep clicked) as [_ Hd]; [lia|]. destruct Hpc as [_ Hc]. lia. }
  assert (∀ L, (∀ k, k ∈ L → k ≠ clicked) →
    map (λ j, getLine doc j ++ terminator doc j) L
    = map (λ k, newLine doc clicked k ++ terminator doc k) L) as Hsame.
  { intros L HL. apply map_ext_in. intros k Hk. apply list_elem_of_In in Hk.
    unfold newLine. by rewrite (proj2 (Nat.eqb_neq k clicked)) by auto. }
  unfold peerItem. destruct (a =? clicked) eqn:Eac; simpl.
  2: { apply Nat.eqb_neq in Eac. rewrite peerTreeText_spec. f_equal.
       apply Hsame. intros k Hk. destruct (decide (k = a)) as [->|]; auto. }
  apply Nat.eqb_eq in Eac. subst a. rewrite peerTreeText_spec.
  pose proof (peerTreeEndLine_ge doc clicked) as Hge.
  assert (span doc clicked = clicked :: seq (S clicked) (peerTreeEndLine doc clicked - clicked)) as Hspan.
  { unfold span. replace (S (peerTreeEndLine doc clicked) - clicked)
      with (S (peerTreeEndLine doc clicked - clicked)) by lia. done. }
  rewrite Hspan. simpl map. rewrite !concat_cons.
  rewrite (Hsame (seq (S clicked) _)).
  2: { intros k Hk. apply Hne; [rewrite Hspan; by right|].
       apply elem_of_seq in Hk. lia. }
  set (R := concat (map _ (seq (S clicked) _))).
  assert (newLine doc clicked clicked
          = toggle (isNowTicked doc clicked) (getLine doc clicked)) as ->
    by (unfold newLine; by rewrite Nat.eqb_refl).
  destruct (decide (clicked = length doc - 1)) as [El|El].
  - assert (terminator doc clicked = []) as ->
      by (unfold terminator, lineCount; by rewrite (proj2 (Nat.eqb_eq _ _) El)).
    assert (R = []) as ->
      by (unfold R; by replace (peerTreeEndLine doc clicked - clicked) with 0 by lia).
    rewrite !app_nil_r. apply updateClicked_last. by apply wf_getLine.
  - assert (terminator doc clicked = [LF]) as ->
      by (unfold terminator, lineCount; by rewrite (proj2 (Nat.eqb_neq _ _) El)).
    rewrite <-!app_assoc. apply updateClicked_line. by apply wf_getLine.
Qed.

Lemma concat_map_concat {A B} (f : A → list B) (g : nat → list A) (L : list nat) :
  concat (map (λ a, concat (map f (g a))) L) = concat (map f (concat (map g L))).
Proof.
  induction L as [|a L IH]; [done|]. simpl.
  by rewrite map_app, concat_app, IH.
Qed.

Lemma Permutation_concat {A} (l1 l2 : list (list A)) :
  l1 ≡ₚ l2 → concat l1 ≡ₚ concat l2.
Proof.
  induction 1 as [|x l1 l2 _ IH|x y l|l1 l2 l3 _ IH1 _ IH2]; simpl.
  - done.
  - by rewrite IH.
  - rewrite !app_assoc. by rewrite (Permutation_app_comm x y).
  - by rewrite IH1.
Qed.

(** ** The new text, line by line *)

Section region.
Context (doc : document) (clicked : nat) (l : jsstring).
Hypothesis Hwf : wf_doc doc.
Hypothesis Hl : doc !! clicked = Some l.
Hypothesis Hli : listItemRegex l = true.

Let ci := getIndentationLevel l.
Let bs := blockStartLine doc clicked.
Let be := blockEndLine doc clicked.
Let oe := overallBlockEndLine doc clicked.

Lemma peers_chain : chain doc ci bs (peers doc clicked) (S oe).
Proof.
  destruct (region_facts doc clicked l Hl Hli)
    as (F1 & F2 & F3 & F4 & F5 & F6 & F7 & F8 & F9 & F10).
  unfold peers. rewrite (getLine_Some _ _ _ Hl).
  apply (peerStarts_chain doc ci bs be oe); auto; lia.
Qed.

Lemma peers_regionIndices :
  concat (map (span doc) (peers doc clicked)) = regionIndices doc clicked.
Proof.
  destruct (chain_concat _ _ _ _ _ peers_chain) as [Hle ->].
  unfold regionIndices. fold bs oe. f_equal.
Qed.

Lemma clicked_in_peers : clicked ∈ peers doc clicked.
Proof.
  destruct (region_facts doc clicked l Hl Hli)
    as (F1 & F2 & F3 & F4 & F5 & F6 & F7 & F8 & F9 & F10).
  assert (clicked ∈ concat (map (span doc) (peers doc clicked))) as Hin.
  { rewrite peers_regionIndices. unfold regionIndices. apply elem_of_seq.
    fold bs oe be in F1, F2, F3 |- *. lia. }
  apply list_elem_of_In, in_concat in Hin as (s & Hs & Hin).
  apply in_map_iff in Hs as (a & <- & Ha). apply list_elem_of_In in Ha.
  destruct (chain_elem _ _ _ _ _ _ peers_chain Ha) as (C1 & C2 & C3 & C4).
  apply list_elem_of_In in Hin. unfold span in Hin. apply elem_of_seq in Hin.
  destruct (decide (clicked = a)) as [->|Hne]; [done|]. exfalso.
  destruct (C4 clicked) as [_ Hd]; [lia|]. destruct F7 as [_ Hc].
  fold ci in Hc. lia.
Qed.

Lemma newOrder_perm : newOrder doc clicked ≡ₚ regionIndices doc clicked.
Proof.
  rewrite <-peers_regionIndices. unfold newOrder.
  apply Permutation_concat, Permutation_map.
  rewrite Permutation_app_comm.
  rewrite <-(filter_app_complement (λ a, bucketOf doc clicked a = true)
               (peers doc clicked)) at 3.
  apply Permutation_app; [done|].
  erewrite list_filter_iff; [done|].
  intros a. simpl. destruct (bucketOf doc clicked a); split; congruence.
Qed.

Lemma finalBlockText_newOrder :
  finalBlockText doc clicked =
    concat (map (λ k, newLine doc clicked k ++ terminator doc k)
                (newOrder doc clicked)).
Proof.
  destruct (region_facts doc clicked l Hl Hli)
    as (F1 & F2 & F3 & F4 & F5 & F6 & F7 & F8 & F9 & F10).
  assert (∀ L, (∀ a, a ∈ L → a ∈ peers doc clicked) →
    map text (map (λ a, (peerItem doc clicked (isNowTicked doc clicked) a).2) L)
    = map (λ a, concat (map (λ k, newLine doc clicked k ++ terminator doc k)
                          (span doc a))) L) as Htext.
  { intros L HL. rewrite map_map. apply map_ext_in. intros a Ha.
    apply list_elem_of_In, HL in Ha.
    destruct (chain_elem _ _ _ _ _ _ peers_chain Ha) as (C1 & C2 & C3 & C4).
    apply (item_text doc clicked ci); auto. fold oe in F4. lia. }
  unfold finalBlockText, newOrder.
  rewrite sortedBuckets_unticked, sortedBuckets_ticked.
  rewrite !Htext by (intros a Ha; by apply list_elem_of_filter in Ha as [_ ?]).
  rewrite !concat_map_concat. by rewrite <-concat_app, <-map_app, <-concat_app, <-map_app.
Qed.

End region.

(** ** The end of a text *)

Lemma endsWithLF_snoc s : endsWithLF (s ++ [LF]) = true.
Proof. unfold endsWithLF. by rewrite last_snoc. Qed.

Lemma endsWithLF_app_line s z : z ≠ [] → LF ∉ z → endsWithLF (s ++ z) = false.
Proof.
  intros Hz Hlf. destruct (exists_last Hz) as (z' & c & ->).
  unfold endsWithLF. rewrite app_assoc, last_snoc.
  apply N.eqb_neq. intros ->. apply Hlf. rewrite elem_of_app.
  right. apply list_elem_of_here.
Qed.

Lemma sliceInit_snoc s c : sliceInit (s ++ [c]) = s.
Proof. apply removelast_last. Qed.

Lemma stripLF_snoc s : stripLF (s ++ [LF]) = s.
Proof. unfold stripLF. by rewrite endsWithLF_snoc, sliceInit_snoc. Qed.

Lemma endsWithLF_inv s : endsWithLF s = true → s = sliceInit s ++ [LF].
Proof.
  unfold endsWithLF, sliceInit. intros H.
  destruct s as [|c s] using rev_ind; [done|].
  rewrite last_snoc in H. apply N.eqb_eq in H as ->.
  by rewrite removelast_last.
Qed.

Lemma trim_stripLF s : trim (stripLF s) = trim s.
Proof.
  unfold stripLF. destruct (endsWithLF s) eqn:E; [|done].
  rewrite (endsWithLF_inv s E) at 2. by rewrite trim_snoc_LF.
Qed.

Lemma join_snoc ls z : ∃ A, join (ls ++ [z]) = A ++ z.
Proof.
  destruct ls as [|l ls]; [by exists []|].
  exists (unlines (l :: ls)). by apply join_app.
Qed.

Lemma endsWithLF_join ls :
  ls ≠ [] → Forall (λ l, l ≠ [] ∧ LF ∉ l) ls → endsWithLF (join ls) = false.
Proof.
  intros Hne HF. destruct (exists_last Hne) as (ls' & z & ->).
  apply Forall_app in HF as [_ Hz]. apply Forall_singleton in Hz as [Hz1 Hz2].
  destruct (join_snoc ls' z) as [A ->]. by apply endsWithLF_app_line.
Qed.

(** ** Ranges of the buffer *)

Lemma map_getLine_seq doc i m :
  i + m ≤ length doc → map (getLine doc) (seq i m) = take m (drop i doc).
Proof.
  revert i. induction m as [|m IH]; intros i Hi; [done|].
  destruct (lookup_lt_is_Some_2 doc i) as [x Hx]; [lia|].
  rewrite (drop_S _ _ _ Hx). simpl. rewrite (getLine_Some _ _ _ Hx).
  f_equal. apply IH. lia.
Qed.

Lemma posToOffset_line doc i c :
  posToOffset doc {| line := i; ch := c |} = length (unlines (take i doc)) + c.
Proof. unfold posToOffset. simpl. by rewrite length_unlines. Qed.

Lemma docText_split doc i :
  i < length doc → docText doc = unlines (take i doc) ++ join (drop i doc).
Proof.
  intros Hi. unfold docText. destruct i as [|i]; [by rewrite drop_0|].
  rewrite <-(take_drop (S i) doc) at 1. apply join_app.
  - destruct doc; simpl in *; [lia|done].
  - intros E. apply (f_equal length) in E. rewrite length_drop in E.
    simpl in E. lia.
Qed.

Lemma getRange_lines doc i j :
  i ≤ j → j < length doc →
  getRange doc {| line := i; ch := 0 |} {| line := j; ch := 0 |}
  = unlines (take (j - i) (drop i doc)).
Proof.
  intros Hij Hj. unfold getRange. rewrite !posToOffset_line, !Nat.add_0_r.
  rewrite (docText_split doc i) by lia.
  rewrite drop_app_length.
  assert (take j doc = take i doc ++ take (j - i) (drop i doc)) as E.
  { rewrite take_take_drop. f_equal. lia. }
  rewrite E, unlines_app, length_app, Nat.add_sub'.
  destruct (decide (i = j)) as [->|Hne].
  { rewrite Nat.sub_diag. simpl. by rewrite take_0. }
  rewrite <-(take_drop (j - i) (drop i doc)) at 2.
  rewrite join_app.
  - by rewrite take_app_length.
  - intros E'. apply (f_equal length) in E'.
    rewrite length_take, length_drop in E'. simpl in E'. lia.
  - intros E'. apply (f_equal length) in E'.
    rewrite !length_drop in E'. simpl in E'. lia.
Qed.

Lemma getRange_to_end doc i :
  i < length doc →
  getRange doc {| line := i; ch := 0 |}
    {| line := length doc - 1; ch := length (getLine doc (length doc - 1)) |}
  = join (drop i doc).
Proof.
  intros Hi. unfold getRange. rewrite !posToOffset_line, !Nat.add_0_r.
  rewrite (docText_split doc i) by lia. rewrite drop_app_length.
  apply take_ge.
  assert (length (unlines (take (length doc - 1) doc))
          + length (getLine doc (length doc - 1))
          = length (docText doc)) as E.
  { rewrite (docText_split doc (length doc - 1)) by lia.
    rewrite length_app. f_equal.
    destruct (lookup_lt_is_Some_2 doc (length doc - 1)) as [x Hx]; [lia|].
    rewrite (drop_S _ _ _ Hx), (getLine_Some _ _ _ Hx).
    rewrite drop_ge by lia. done. }
  rewrite E, (docText_split doc i) by lia. rewrite length_app. lia.
Qed.

Lemma join_app_r a b : b ≠ [] → join (a ++ b) = unlines a ++ join b.
Proof. intros Hb. destruct a; [done|]. by apply join_app. Qed.

Lemma join_glue z y Y : join ((z ++ y) :: Y) = z ++ join (y :: Y).
Proof.
  destruct Y as [|y' Y]; [done|]. rewrite !join_cons by done.
  by rewrite <-app_assoc.
Qed.

Lemma map_newLine_alter doc clicked bs m :
  bs ≤ clicked →
  map (newLine doc clicked) (seq bs m)
  = alter (toggle (isNowTicked doc clicked)) (clicked - bs)
          (map (getLine doc) (seq bs m)).
Proof.
  intros Hbs. apply list_eq. intros k.
  change (map ?f ?L) with (f <$> L). rewrite list_lookup_fmap.
  destruct (decide (clicked - bs = k)) as [<-|Hne].
  - rewrite list_lookup_alter_eq, list_lookup_fmap.
    destruct (seq bs m !! (clicked - bs)) as [j|] eqn:E; [|done]. simpl.
    apply lookup_seq in E as [-> _]. unfold newLine.
    replace (bs + (clicked - bs)) with clicked by lia.
    by rewrite Nat.eqb_refl.
  - rewrite list_lookup_alter_ne, list_lookup_fmap by done.
    destruct (seq bs m !! k) as [j|] eqn:E; [|done]. simpl.
    apply lookup_seq in E as [-> _]. unfold newLine.
    by rewrite (proj2 (Nat.eqb_neq (bs + k) clicked)) by lia.
Qed.

(** ** The replacement text and the text it replaces *)

Section replacement.
Context (doc : document) (clicked : nat) (l : jsstring).
Hypothesis Hwf : wf_doc doc.
Hypothesis Hl : doc !! clicked = Some l.
Hypothesis Hli : listItemRegex l = true.

Let bs := blockStartLine doc clicked.
Let oe := overallBlockEndLine doc clicked.
Let idx := newOrder doc clicked.
Let n := map (newLine doc clicked) idx.
Let o := regionLines doc clicked.

Lemma region_bounds : bs ≤ clicked ∧ clicked ≤ oe ∧ oe < length doc.
Proof.
  destruct (region_facts doc clicked l Hl Hli)
    as (F1 & F2 & F3 & F4 & F5 & F6 & F7 & F8 & F9 & F10).
  unfold bs, oe. lia.
Qed.

Lemma region_line k :
  bs ≤ k ≤ oe →
  solid (getLine doc k) ∧ (LF ∉ getLine doc k)
  ∧ solid (newLine doc clicked k) ∧ (LF ∉ newLine doc clicked k).
Proof.
  intros Hk.
  destruct (region_facts doc clicked l Hl Hli)
    as (F1 & F2 & F3 & F4 & F5 & F6 & F7 & F8 & F9 & F10).
  destruct (F8 k Hk) as [Hlk _]. apply listItem_solid in Hlk.
  pose proof (wf_getLine doc k Hwf) as Hlf.
  unfold newLine. destruct (k =? clicked); split_and!; auto.
  - by apply toggle_solid.
  - by apply toggle_no_LF.
Qed.

Lemma newOrder_in_region k : k ∈ idx → bs ≤ k ≤ oe.
Proof.
  intros Hk. unfold idx in Hk.
  rewrite (newOrder_perm doc clicked l Hl Hli) in Hk.
  unfold regionIndices in Hk. apply elem_of_seq in Hk.
  pose proof region_bounds. fold bs oe in Hk. lia.
Qed.

Lemma length_newOrder : length idx = S oe - bs.
Proof.
  unfold idx. rewrite (Permutation_length (newOrder_perm doc clicked l Hl Hli)).
  unfold regionIndices. by rewrite length_seq.
Qed.

Lemma regionLines_solid : Forall solid o ∧ Forall (λ x, LF ∉ x) o ∧ o ≠ [] ∧ length o = S oe - bs.
Proof.
  pose proof region_bounds as HB.
  assert (∀ x, x ∈ o → solid x ∧ LF ∉ x) as H.
  { intros x Hx. unfold o, regionLines in Hx.
    apply list_elem_of_In, in_map_iff in Hx as (k & <- & Hk).
    apply list_elem_of_In in Hk. unfold regionIndices in Hk.
    apply elem_of_seq in Hk. fold bs oe in Hk.
    destruct (region_line k) as (? & ? & _); [lia|done]. }
  assert (length o = S oe - bs) as Hlen
    by (unfold o, regionLines, regionIndices; by rewrite length_map, length_seq).
  split_and!; try done.
  - apply Forall_forall. intros x Hx. by apply H.
  - apply Forall_forall. intros x Hx. by apply H.
  - intros E. rewrite E in Hlen. simpl in Hlen. lia.
Qed.

Lemma newLines_solid L :
  (∀ k, k ∈ L → bs ≤ k ≤ oe) →
  Forall solid (map (newLine doc clicked) L)
  ∧ Forall (λ x, LF ∉ x) (map (newLine doc clicked) L).
Proof.
  intros HL.
  assert (∀ x, x ∈ map (newLine doc clicked) L → solid x ∧ LF ∉ x) as H.
  { intros x Hx. apply list_elem_of_In, in_map_iff in Hx as (k & <- & Hk).
    apply list_elem_of_In in Hk.
    destruct (region_line k) as (_ & _ & ? & ?); [by apply HL|done]. }
  split; apply Forall_forall; intros x Hx; by apply H.
Qed.

Lemma newText_solid : Forall solid n ∧ Forall (λ x, LF ∉ x) n ∧ length n = length o.
Proof.
  destruct (newLines_solid idx newOrder_in_region) as [H1 H2]. split_and!; try done.
  unfold n. rewrite length_map, length_newOrder. by destruct regionLines_solid as (_ & _ & _ & ->).
Qed.

Lemma newLines_perm : n ≡ₚ alter (toggle (isNowTicked doc clicked)) (clicked - bs) o.
Proof.
  pose proof region_bounds as HB.
  unfold n, o, regionLines, regionIndices. fold bs oe.
  rewrite <-(map_newLine_alter doc clicked bs) by lia.
  apply Permutation_map. apply (newOrder_perm doc clicked l Hl Hli).
Qed.

Lemma concat_terminated L :
  (∀ k, k ∈ L → k ≠ length doc - 1) →
  concat (map (λ k, newLine doc clicked k ++ terminator doc k) L)
  = unlines (map (newLine doc clicked) L).
Proof.
  intros HL. unfold unlines. rewrite map_map. f_equal.
  apply map_ext_in. intros k Hk. apply list_elem_of_In, HL in Hk.
  unfold terminator, lineCount. by rewrite (proj2 (Nat.eqb_neq _ _) Hk).
Qed.

Lemma original_interior :
  oe < length doc - 1 → originalBlockText doc clicked = unlines o.
Proof.
  intros Hoe. pose proof region_bounds as HB.
  unfold originalBlockText, deleteFrom, deleteTo. fold bs oe.
  unfold lineCount. rewrite (proj2 (Nat.eqb_neq oe (length doc - 1))) by lia.
  rewrite getRange_lines by lia.
  unfold o, regionLines, regionIndices. fold bs oe.
  rewrite map_getLine_seq by lia. done.
Qed.

Lemma original_at_end :
  oe = length doc - 1 → originalBlockText doc clicked = join o.
Proof.
  intros Hoe. pose proof region_bounds as HB.
  unfold originalBlockText, deleteFrom, deleteTo. fold bs oe.
  unfold lineCount. rewrite (proj2 (Nat.eqb_eq oe (length doc - 1))) by lia.
  rewrite Hoe. rewrite getRange_to_end by lia.
  unfold o, regionLines, regionIndices. fold bs oe.
  rewrite map_getLine_seq by lia. rewrite take_ge; [done|].
  rewrite length_drop. lia.
Qed.

Lemma newOrder_nonempty : idx ≠ [].
Proof.
  pose proof region_bounds. pose proof length_newOrder as H'.
  intros E. rewrite E in H'. simpl in H'. lia.
Qed.

Lemma newText_nonempty : n ≠ [] ∧ Forall (λ x, x ≠ [] ∧ LF ∉ x) n.
Proof.
  destruct newText_solid as (H1 & H2 & H3). split.
  - unfold n. pose proof newOrder_nonempty. by destruct idx.
  - apply Forall_and. split; [|done].
    eapply Forall_impl; [exact H1|]. apply solid_nonempty.
Qed.

(** A region that stops before the last line of the buffer: every line of
    the new text ends with a line break. *)
Lemma textToInsert_interior :
  oe < length doc - 1 → textToInsert doc clicked = unlines n.
Proof.
  intros Hoe. unfold textToInsert. fold oe.
  rewrite (finalBlockText_newOrder doc clicked l Hwf Hl Hli). fold idx.
  rewrite concat_terminated by (intros k Hk; apply newOrder_in_region in Hk; lia).
  fold n. destruct newText_nonempty as [Hn _].
  unfold normalizeNewline, lineCount.
  rewrite (unlines_join n Hn), endsWithLF_snoc. simpl.
  rewrite (proj2 (Nat.eqb_neq oe (length doc - 1))) by lia.
  by rewrite andb_false_r.
Qed.

(** A region that ends the buffer: either the subtree with the last line is
    still the last one, or its last line is glued to the line after it. *)
Lemma textToInsert_at_end :
  oe = length doc - 1 →
  textToInsert doc clicked = join n
  ∨ ∃ n', textToInsert doc clicked = join n'
          ∧ S (length n') = length o ∧ n' ≠ []
          ∧ Forall solid n' ∧ Forall (λ x, LF ∉ x) n'.
Proof.
  intros Hoe. pose proof region_bounds as HB.
  assert (oe ∈ idx) as Hin.
  { unfold idx. rewrite (newOrder_perm doc clicked l Hl Hli).
    unfold regionIndices. apply elem_of_seq. fold bs oe. lia. }
  assert (NoDup idx) as Hnd.
  { unfold idx. rewrite (newOrder_perm doc clicked l Hl Hli). apply NoDup_seq. }
  apply list_elem_of_split in Hin as (X & Y & EX).
  rewrite EX in Hnd. apply NoDup_app in Hnd as (_ & HX & HY).
  apply NoDup_cons in HY as [HY _].
  assert (∀ k, k ∈ X → k ≠ length doc - 1) as HX'.
  { intros k Hk ->. apply (HX _ Hk). rewrite <-Hoe. apply list_elem_of_here. }
  assert (∀ k, k ∈ Y → k ≠ length doc - 1) as HY'.
  { intros k Hk ->. apply HY. by rewrite Hoe. }
  assert (∀ k, k ∈ X ++ oe :: Y → bs ≤ k ≤ oe) as Hreg
    by (intros k Hk; apply newOrder_in_region; by rewrite EX).
  destruct (region_line oe) as (_ & _ & Sz & Lz); [lia|].
  destruct (newLines_solid X) as [SX LX].
  { intros k Hk. apply Hreg. rewrite elem_of_app. by left. }
  destruct (newLines_solid Y) as [SY LY].
  { intros k Hk. apply Hreg. rewrite elem_of_app. right. by right. }
  set (X' := map (newLine doc clicked) X) in *.
  set (Y' := map (newLine doc clicked) Y) in *.
  set (z := newLine doc clicked oe) in *.
  assert (n = X' ++ z :: Y') as En
    by (unfold n; by rewrite EX, map_app).
  assert (finalBlockText doc clicked = unlines X' ++ z ++ unlines Y') as Ef.
  { rewrite (finalBlockText_newOrder doc clicked l Hwf Hl Hli). fold idx.
    rewrite EX, map_app, concat_app. simpl. rewrite concat_terminated by done.
    rewrite concat_terminated by done. fold X' Y'. f_equal.
    unfold terminator, lineCount.
    rewrite (proj2 (Nat.eqb_eq oe (length doc - 1))) by done.
    by rewrite app_nil_r. }
  unfold textToInsert, normalizeNewline, lineCount. fold oe. rewrite Ef.
  rewrite (proj2 (Nat.eqb_eq oe (length doc - 1))) by done.
  rewrite (proj2 (Nat.ltb_ge oe (length doc - 1))) by lia.
  rewrite andb_false_r, andb_true_r.
  destruct Y' as [|y Yt] eqn:EY.
  - left. change (unlines []) with (@nil N). rewrite app_nil_r.
    rewrite endsWithLF_app_line by (by apply solid_nonempty || done).
    rewrite En. by rewrite join_app_r.
  - right. exists (X' ++ (z ++ y) :: Yt).
    rewrite (unlines_join (y :: Yt)) by done. rewrite !app_assoc.
    rewrite endsWithLF_snoc, sliceInit_snoc.
    apply Forall_cons in SY as [Sy SYt]. apply Forall_cons in LY as [Ly LYt].
    split_and!.
    + rewrite join_app_r by done. rewrite join_glue. by rewrite <-app_assoc.
    + destruct newText_solid as (_ & _ & <-). rewrite En, !length_app. simpl. lia.
    + by destruct X'.
    + apply Forall_app. split; [done|]. apply Forall_cons. split; [|done].
      by apply solid_app_l.
    + apply Forall_app. split; [done|]. apply Forall_cons. split; [|done].
      rewrite elem_of_app. tauto.
Qed.

(** Trimmed texts agree only when the texts do. *)
Lemma noChanges_exact :
  trim (textToInsert doc clicked) = trim (originalBlockText doc clicked) →
  textToInsert doc clicked = originalBlockText doc clicked.
Proof.
  pose proof region_bounds as HB.
  destruct regionLines_solid as (So & Lo & Ho & Hlen).
  destruct newText_solid as (Sn & Ln & Hnlen).
  destruct newText_nonempty as [Hn _].
  assert (trim (join n) = trim (join o) → n = o) as Hcore.
  { apply (trimmed_lines_eq n o (clicked - bs) (toggle (isNowTicked doc clicked)));
      auto; [apply newLines_perm|]. intros x. apply trim_toggle_inv. }
  destruct (decide (oe = length doc - 1)) as [Hend|Hend].
  - rewrite original_at_end by done.
    destruct (textToInsert_at_end Hend) as [->|(n' & -> & Hlen' & Hn' & Sn' & Ln')].
    + intros E. by rewrite (Hcore E).
    + intros E. exfalso. rewrite !trim_join in E by done.
      apply join_inj in E; [|by apply trimEnds_nonempty..| |];
        [|by apply trimEnds_no_LF..].
      apply (f_equal length) in E. rewrite !length_trimEnds in E. lia.
  - rewrite original_interior, textToInsert_interior by lia.
    rewrite !unlines_join by done. rewrite !trim_snoc_LF.
    intros E. by rewrite (Hcore E).
Qed.

Lemma textToInsert_end_of_file :
  oe = length doc - 1 → endsWithLF (textToInsert doc clicked) = false.
Proof.
  intros Hend.
  destruct (textToInsert_at_end Hend) as [->|(n' & -> & Hlen' & Hn' & Sn' & Ln')].
  - destruct newText_nonempty as [Hn HF]. by apply endsWithLF_join.
  - apply endsWithLF_join; [done|]. apply Forall_and. split; [|done].
    eapply Forall_impl; [exact Sn'|]. apply solid_nonempty.
Qed.

Lemma textToInsert_before_more :
  oe < length doc - 1 →
  textToInsert doc clicked = join n ++ [LF] ∧ endsWithLF (join n) = false.
Proof.
  intros Hoe. destruct newText_nonempty as [Hn HF]. split.
  - rewrite textToInsert_interior by done. by apply unlines_join.
  - by apply endsWithLF_join.
Qed.

End replacement.

(** ** How the handler unfolds *)

Lemma sort_enabled settings fm doc clicked l :
  doc !! clicked = Some l →
  (effectiveSortingEnabled settings fm doc clicked).1 = true →
  sortCheckboxesAroundClick settings fm doc clicked =
    if negb (listItemRegex l) then NotAListItem clicked
    else if noChangesNeeded doc clicked then NoChanges
    else Transaction (deleteFrom doc clicked) (deleteTo doc clicked)
                     (textToInsert doc clicked).
Proof.
  intros Hl He. unfold sortCheckboxesAroundClick. rewrite Hl.
  destruct (effectiveSortingEnabled settings fm doc clicked) as [e s].
  simpl in He. subst e. reflexivity.
Qed.

Lemma sort_disabled settings fm doc clicked l :
  doc !! clicked = Some l →
  (effectiveSortingEnabled settings fm doc clicked).1 = false →
  sortCheckboxesAroundClick settings fm doc clicked =
    SortingDisabled (effectiveSortingEnabled settings fm doc clicked).2.
Proof.
  intros Hl He. unfold sortCheckboxesAroundClick. rewrite Hl.
  destruct (effectiveSortingEnabled settings fm doc clicked) as [e s].
  simpl in He. subst e. reflexivity.
Qed.

Lemma sort_is_transaction settings fm doc clicked from to t :
  sortCheckboxesAroundClick settings fm doc clicked = Transaction from to t →
  ∃ l, doc !! clicked = Some l
       ∧ (effectiveSortingEnabled settings fm doc clicked).1 = true
       ∧ listItemRegex l = true
       ∧ noChangesNeeded doc clicked = false
       ∧ from = deleteFrom doc clicked ∧ to = deleteTo doc clicked
       ∧ t = textToInsert doc clicked.
Proof.
  unfold sortCheckboxesAroundClick.
  destruct (doc !! clicked) as [l|]; [|discriminate].
  destruct (effectiveSortingEnabled settings fm doc clicked) as [[] s]; simpl;
    [|discriminate].
  destruct (listItemRegex l) eqn:Hli; simpl; [|discriminate].
  destruct (noChangesNeeded doc clicked); [discriminate|].
  intros [= <- <- <-]. exists l. repeat split; assumption || reflexivity.
Qed.

(** ** The README example *)

(** C2. With sorting enabled, a click on line 0 of the three-line buffer
    "- [ ] Buy milk", "- [ ] Get gas", "- [x] Bread" issues one transaction
    over the whole buffer, and the buffer then reads "- [ ] Get gas",
    "- [x] Buy milk", "- [x] Bread". *)
Theorem basic_example_rewritten settings fm :
  (effectiveSortingEnabled settings fm basicExample 0).1 = true →
  sortCheckboxesAroundClick settings fm basicExample 0 =
    Transaction {| line := 0; ch := 0 |} {| line := 2; ch := 11 |}
      (join [js "- [ ] Get gas"; js "- [x] Buy milk"; js "- [x] Bread"])
  ∧ handleClick settings fm basicExample 0 =
      [js "- [ ] Get gas"; js "- [x] Buy milk"; js "- [x] Bread"].
Proof.
  intros He. unfold handleClick.
  rewrite (sort_enabled settings fm basicExample 0 (js "- [ ] Buy milk")
             eq_refl He).
  split; vm_compute; reflexivity.
Qed.

Lemma basic_example_rewritten_witness :
  handleClick DEFAULT_SETTINGS None basicExample 0 =
    [js "- [ ] Get gas"; js "- [x] Buy milk"; js "- [x] Bread"].
Proof.
  apply (basic_example_rewritten DEFAULT_SETTINGS None). reflexivity.
Defined.

(** ** The list marker *)

(** The scan finds an enable marker at line [m] when every line between it
    and the clicked one still matches the list pattern after [trim] and holds
    no disable marker. *)
Lemma scanListMarker_enable doc m n :
  m < n →
  includes enableMarker (trim (getLine doc m)) = true →
  (∀ k, m < k < n →
        includes disableMarker (trim (getLine doc k)) = false
        ∧ listItemRegex (trim (getLine doc k)) = true) →
  ∃ k, scanListMarker doc n = Some (true, k).
Proof.
  intros Hmn Hen Hbetween. induction n as [|n IH]; [lia|].
  simpl. destruct (decide (m = n)) as [->|Hne].
  - rewrite Hen. eauto.
  - destruct (includes enableMarker (trim (getLine doc n))); [eauto|].
    destruct (Hbetween n) as [-> ->]; [lia|]. simpl.
    apply IH; [lia|]. intros k Hk. apply Hbetween. lia.
Qed.

(** Marker over front matter over global default, for a block whose lines
    keep matching the list pattern once trimmed. *)
Lemma marker_precedence settings fm doc m clicked :
  m < clicked →
  includes enableMarker (trim (getLine doc m)) = true →
  (∀ k, m < k < clicked →
        includes disableMarker (trim (getLine doc k)) = false
        ∧ listItemRegex (trim (getLine doc k)) = true) →
  effectiveSortingEnabled settings fm doc clicked = (true, ListMarkerEnable).
Proof.
  intros Hm Hen Hb. unfold effectiveSortingEnabled.
  destruct (scanListMarker_enable doc m clicked Hm Hen Hb) as [k ->].
  reflexivity.
Qed.

(** C4. Global default [true], front matter [false], an enable marker right
    above a list whose first item is an empty bullet, a click on the second
    item: the scan trims the empty bullet to a lone dash, takes it for
    non-list content and stops before the marker, so the front matter
    decides and sorting is disabled.  With text after the bullet the marker
    is found ([marker_found_example]). *)
Theorem empty_bullet_hides_marker :
  listItemRegex (js "- ") = true
  ∧ listItemRegex (trim (js "- ")) = false
  ∧ scanListMarker emptyBulletExample 5 = None
  ∧ effectiveSortingEnabled DEFAULT_SETTINGS frontmatterOff emptyBulletExample 5
    = (false, FileFrontmatter)
  ∧ sortCheckboxesAroundClick DEFAULT_SETTINGS frontmatterOff emptyBulletExample 5
    = SortingDisabled FileFrontmatter.
Proof. vm_compute. repeat split; reflexivity. Qed.

Example marker_found_example :
  effectiveSortingEnabled DEFAULT_SETTINGS frontmatterOff
    [js "---"; js "checkbox-sort: false"; js "---";
     js "%%checkbox-sort: true%%"; js "- b"; js "- [ ] a"] 5
  = (true, ListMarkerEnable).
Proof. vm_compute. reflexivity. Qed.

(** ** Disabled sorting *)

(** C5. When the resolved setting is [false], whatever its source, the
    handler issues no transaction: the buffer is left as it is, for every
    buffer and every clicked line. *)
Theorem disabled_no_mutation settings fm doc clicked :
  (effectiveSortingEnabled settings fm doc clicked).1 = false →
  (∀ from to t,
      sortCheckboxesAroundClick settings fm doc clicked ≠ Transaction from to t)
  ∧ handleClick settings fm doc clicked = doc.
Proof.
  intros He.
  assert (∀ from to t,
    sortCheckboxesAroundClick settings fm doc clicked ≠ Transaction from to t)
    as Hno.
  { intros from to t Ht.
    apply sort_is_transaction in Ht as (l & _ & He' & _). congruence. }
  split; [exact Hno|]. unfold handleClick.
  destruct (sortCheckboxesAroundClick settings fm doc clicked) eqn:Ho;
    try reflexivity.
  exfalso. eapply Hno. reflexivity.
Qed.

Lemma disabled_no_mutation_witness :
  handleClick {| enableGlobalCheckboxSort := false; debugMode := false |} None
    basicExample 0 = basicExample.
Proof.
  apply (disabled_no_mutation
           {| enableGlobalCheckboxSort := false; debugMode := false |} None
           basicExample 0).
  reflexivity.
Defined.

(** The three sources of a [false]. *)
Lemma disabled_by_global doc clicked :
  scanListMarker doc clicked = None →
  effectiveSortingEnabled
    {| enableGlobalCheckboxSort := false; debugMode := false |} None doc clicked
  = (false, GlobalDefault).
Proof. intros H. unfold effectiveSortingEnabled. rewrite H. reflexivity. Qed.

Lemma disabled_by_frontmatter settings doc clicked :
  scanListMarker doc clicked = None →
  effectiveSortingEnabled settings
    (Some {[ js "checkbox-sort" := JSBoolean false ]}) doc clicked
  = (false, FileFrontmatter).
Proof. intros H. unfold effectiveSortingEnabled. rewrite H. reflexivity. Qed.

Lemma disabled_by_marker settings fm doc clicked k :
  scanListMarker doc clicked = Some (false, k) →
  effectiveSortingEnabled settings fm doc clicked = (false, ListMarkerDisable).
Proof. intros H. unfold effectiveSortingEnabled. rewrite H. reflexivity. Qed.

(** ** A click on a line that is no list item *)

(** C7. A click on a line that fails the list-item pattern changes nothing:
    the handler returns either at the disabled check or, when sorting is
    enabled, at the warning "is not a list item", and in both cases no
    transaction is issued and the buffer is left as it is. *)
Theorem not_a_list_item_aborts settings fm doc clicked l :
  doc !! clicked = Some l →
  listItemRegex l = false →
  sortCheckboxesAroundClick settings fm doc clicked =
    (if (effectiveSortingEnabled settings fm doc clicked).1
     then NotAListItem clicked
     else SortingDisabled (effectiveSortingEnabled settings fm doc clicked).2)
  ∧ handleClick settings fm doc clicked = doc.
Proof.
  intros Hl Hno.
  assert (sortCheckboxesAroundClick settings fm doc clicked =
    (if (effectiveSortingEnabled settings fm doc clicked).1
     then NotAListItem clicked
     else SortingDisabled (effectiveSortingEnabled settings fm doc clicked).2))
    as Ho.
  { destruct ((effectiveSortingEnabled settings fm doc clicked).1) eqn:He.
    - rewrite (sort_enabled _ _ _ _ _ Hl He), Hno. reflexivity.
    - apply (sort_disabled _ _ _ _ _ Hl He). }
  split; [exact Ho|]. unfold handleClick. rewrite Ho.
  destruct ((effectiveSortingEnabled settings fm doc clicked).1); reflexivity.
Qed.

Lemma not_a_list_item_aborts_witness :
  sortCheckboxesAroundClick DEFAULT_SETTINGS None [js "plain text"; js "-no space"] 1
    = NotAListItem 1
  ∧ handleClick DEFAULT_SETTINGS None [js "plain text"; js "-no space"] 1
    = [js "plain text"; js "-no space"].
Proof.
  apply (not_a_list_item_aborts DEFAULT_SETTINGS None
           [js "plain text"; js "-no space"] 1 (js "-no space"));
    reflexivity.
Defined.

(** ** A front-matter entry that is no boolean *)

(** C9. A [checkbox-sort] entry of the front matter whose value is present
    but not of type boolean is treated as if it were absent: the file-level
    setting is the global default, and the handler does exactly what it does
    without front matter; in particular it raises no error. *)
Theorem frontmatter_non_boolean_ignored
    (settings : CheckboxSortSettings) (o : gmap jsstring jsvalue)
    (v : jsvalue) (doc : document) (clicked : nat) :
  o !! js "checkbox-sort" = Some v →
  typeof v ≠ TBoolean →
  fileLevelSortingEnabled settings (Some o) =
    (enableGlobalCheckboxSort settings, GlobalDefault)
  ∧ effectiveSortingEnabled settings (Some o) doc clicked =
      effectiveSortingEnabled settings None doc clicked
  ∧ sortCheckboxesAroundClick settings (Some o) doc clicked =
      sortCheckboxesAroundClick settings None doc clicked.
Proof.
  intros Hv Hty.
  assert (fileLevelSortingEnabled settings (Some o) =
    (enableGlobalCheckboxSort settings, GlobalDefault)) as Hf.
  { unfold fileLevelSortingEnabled, getProperty. rewrite Hv. simpl.
    rewrite (bool_decide_eq_false_2 _ Hty), andb_false_r. reflexivity. }
  assert (effectiveSortingEnabled settings (Some o) doc clicked =
    effectiveSortingEnabled settings None doc clicked) as He.
  { unfold effectiveSortingEnabled. rewrite Hf. reflexivity. }
  split; [exact Hf|]. split; [exact He|].
  unfold sortCheckboxesAroundClick. rewrite He. reflexivity.
Qed.

Lemma frontmatter_non_boolean_ignored_witness :
  fileLevelSortingEnabled DEFAULT_SETTINGS
    (Some {[ js "checkbox-sort" := JSString (js "false") ]})
  = (true, GlobalDefault).
Proof.
  apply (frontmatter_non_boolean_ignored DEFAULT_SETTINGS
           {[ js "checkbox-sort" := JSString (js "false") ]}
           (JSString (js "false")) [] 0).
  - apply lookup_singleton_eq.
  - discriminate.
Defined.

(** ** When the handler writes *)

(** On arbitrary texts the comparison of line 324 is coarser than equality
    up to a final line break: it also takes white space at the start for
    nothing. *)
Example trim_alone_is_coarser :
  trim (js "  - a") = trim (js "- a")
  ∧ ¬ equalUpToTrailingLF (js "  - a") (js "- a").
Proof. split; [reflexivity|]. unfold equalUpToTrailingLF. vm_compute. discriminate. Qed.

(** C6. For an enabled click on a list item, the handler writes nothing
    exactly when the new text and the text of the replaced range are the
    same up to a line break at the end; whenever they differ by more than
    that, it issues the transaction.  The comparison of line 324 trims both
    texts, but on the texts the handler builds that hides nothing
    ([noChanges_exact]). *)
Theorem no_write_iff_same_text settings fm doc clicked l :
  wf_doc doc →
  doc !! clicked = Some l →
  (effectiveSortingEnabled settings fm doc clicked).1 = true →
  listItemRegex l = true →
  (sortCheckboxesAroundClick settings fm doc clicked = NoChanges
   ↔ equalUpToTrailingLF (textToInsert doc clicked)
                         (originalBlockText doc clicked))
  ∧ (¬ equalUpToTrailingLF (textToInsert doc clicked)
                           (originalBlockText doc clicked) →
     sortCheckboxesAroundClick settings fm doc clicked =
       Transaction (deleteFrom doc clicked) (deleteTo doc clicked)
                   (textToInsert doc clicked)).
Proof.
  intros Hwf Hl He Hli. rewrite (sort_enabled _ _ _ _ _ Hl He), Hli. simpl.
  unfold noChangesNeeded, equalUpToTrailingLF.
  destruct (decide (trim (textToInsert doc clicked)
                    = trim (originalBlockText doc clicked))) as [E|E].
  - rewrite (bool_decide_eq_true_2 _ E).
    apply (noChanges_exact doc clicked l Hwf Hl Hli) in E.
    split; [by rewrite E|]. intros Hne. by rewrite E in Hne.
  - rewrite (bool_decide_eq_false_2 _ E).
    assert (stripLF (textToInsert doc clicked)
            ≠ stripLF (originalBlockText doc clicked)) as Hne.
    { intros Es. apply E.
      rewrite <-(trim_stripLF (textToInsert doc clicked)), Es.
      apply trim_stripLF. }
    split; [|done]. split; [discriminate|done].
Qed.

Lemma no_write_iff_same_text_witness :
  sortCheckboxesAroundClick DEFAULT_SETTINGS None capitalExample 0 = NoChanges
  ↔ equalUpToTrailingLF (textToInsert capitalExample 0)
                        (originalBlockText capitalExample 0).
Proof.
  apply (no_write_iff_same_text DEFAULT_SETTINGS None capitalExample 0
           (js "- [X] done")).
  - apply (bool_decide_unpack _). vm_compute. exact I.
  - reflexivity.
  - reflexivity.
  - reflexivity.
Defined.

(** ** The line break at the end of the new text *)

(** C8. In a transaction, when the replaced region ends with the last line
    of the buffer the range ends at the end of that line and the inserted
    text does not end with a line break; when more lines follow, the range
    ends at the start of the next line and the inserted text ends with
    exactly one line break. *)
Theorem trailing_newline_normalized settings fm doc clicked from to t :
  wf_doc doc →
  sortCheckboxesAroundClick settings fm doc clicked = Transaction from to t →
  (overallBlockEndLine doc clicked = lineCount doc - 1 →
     to = {| line := overallBlockEndLine doc clicked;
             ch := length (getLine doc (overallBlockEndLine doc clicked)) |}
     ∧ endsWithLF t = false)
  ∧ (overallBlockEndLine doc clicked < lineCount doc - 1 →
     to = {| line := S (overallBlockEndLine doc clicked); ch := 0 |}
     ∧ ∃ body, t = body ++ [LF] ∧ endsWithLF body = false).
Proof.
  intros Hwf Ht.
  apply sort_is_transaction in Ht as (l & Hl & _ & Hli & _ & -> & -> & ->).
  unfold deleteTo, lineCount. split; intros Hoe.
  - rewrite (proj2 (Nat.eqb_eq _ _) Hoe). split; [done|].
    by apply (textToInsert_end_of_file doc clicked l).
  - rewrite (proj2 (Nat.eqb_neq _ _)) by lia. split; [done|].
    destruct (textToInsert_before_more doc clicked l Hwf Hl Hli Hoe) as [E1 E2].
    eauto.
Qed.

Lemma trailing_newline_normalized_witness :
  (overallBlockEndLine basicExample 0 = lineCount basicExample - 1 →
     {| line := 2; ch := 11 |}
     = {| line := overallBlockEndLine basicExample 0;
          ch := length (getLine basicExample (overallBlockEndLine basicExample 0)) |}
     ∧ endsWithLF
         (join [js "- [ ] Get gas"; js "- [x] Buy milk"; js "- [x] Bread"])
       = false)
  ∧ (overallBlockEndLine basicExample 0 < lineCount basicExample - 1 →
     {| line := 2; ch := 11 |}
     = {| line := S (overallBlockEndLine basicExample 0); ch := 0 |}
     ∧ ∃ body,
         join [js "- [ ] Get gas"; js "- [x] Buy milk"; js "- [x] Bread"]
         = body ++ [LF] ∧ endsWithLF body = false).
Proof.
  apply (trailing_newline_normalized DEFAULT_SETTINGS None basicExample 0
           {| line := 0; ch := 0 |}).
  - apply (bool_decide_unpack _). vm_compute. exact I.
  - vm_compute. reflexivity.
Defined.

(** The same on a list in the middle of a buffer. *)
Example interior_rewrite :
  sortCheckboxesAroundClick DEFAULT_SETTINGS None interiorExample 3
  = Transaction {| line := 1; ch := 0 |} {| line := 4; ch := 0 |}
      (unlines [js "- [ ] a"; js "- [ ] c"; js "- [x] b"])
  ∧ handleClick DEFAULT_SETTINGS None interiorExample 3
    = [js "# Tasks"; js "- [ ] a"; js "- [ ] c"; js "- [x] b"; js "tail"].
Proof. vm_compute. split; reflexivity. Qed.

(** ** What holds away from the end of the buffer *)

(** When lines follow the region, the new text is, line by line, the
    subtrees of the unticked peers followed by those of the ticked peers,
    each in the order of the buffer, with the clicked line flipped. *)
Lemma interior_text_is_partition doc clicked l :
  wf_doc doc → doc !! clicked = Some l → listItemRegex l = true →
  overallBlockEndLine doc clicked < lineCount doc - 1 →
  textToInsert doc clicked =
    unlines (map (newLine doc clicked) (newOrder doc clicked)).
Proof. intros. by eapply textToInsert_interior. Qed.

(** The lines of the new text are those of the region, the clicked one
    flipped, in another order. *)
Lemma new_lines_permuted doc clicked l :
  wf_doc doc → doc !! clicked = Some l → listItemRegex l = true →
  map (newLine doc clicked) (newOrder doc clicked)
  ≡ₚ alter (toggle (isNowTicked doc clicked))
           (clicked - blockStartLine doc clicked) (regionLines doc clicked).
Proof. intros. by eapply newLines_perm. Qed.

(** Every line but the clicked one is written as it is. *)
Lemma newLine_other doc clicked k :
  k ≠ clicked → newLine doc clicked k = getLine doc k.
Proof. intros H. unfold newLine. by rewrite (proj2 (Nat.eqb_neq k clicked)). Qed.

(** The subtree of a peer stays in one piece and in its order. *)
Lemma subtree_kept_together doc clicked a :
  a ∈ peers doc clicked →
  ∃ before after, newOrder doc clicked = before ++ span doc a ++ after.
Proof.
  intros Ha. unfold newOrder.
  assert (a ∈ filter (λ a, bucketOf doc clicked a = false) (peers doc clicked)
              ++ filter (λ a, bucketOf doc clicked a = true) (peers doc clicked))
    as Hin.
  { rewrite elem_of_app, !list_elem_of_filter.
    destruct (bucketOf doc clicked a); tauto. }
  apply list_elem_of_split in Hin as (L1 & L2 & ->).
  exists (concat (map (span doc) L1)), (concat (map (span doc) L2)).
  by rewrite map_app, concat_app.
Qed.

(** ** A block that ends the file and is moved up *)

(** C1. Unticking the last line of the buffer "- [ ] a", "- [x] b",
    "- [x] c": the unticked bucket holds the blocks "- [ ] a" and "- [ ] c",
    the ticked bucket the block "- [x] b", but the text of the block taken
    from the last line has no line break, so the replacement text has the two
    lines "- [ ] a" and "- [ ] c- [x] b". *)
Theorem last_line_block_not_on_its_own_line :
  map text (untickedItemsData (sortedBuckets lastLineExample 2))
    = [js "- [ ] a" ++ [LF]; js "- [ ] c"]
  ∧ map text (tickedItemsData (sortedBuckets lastLineExample 2))
    = [js "- [x] b" ++ [LF]]
  ∧ sortCheckboxesAroundClick DEFAULT_SETTINGS None lastLineExample 2
    = Transaction {| line := 0; ch := 0 |} {| line := 2; ch := 7 |}
        (join [js "- [ ] a"; js "- [ ] c- [x] b"])
  ∧ split (textToInsert lastLineExample 2) ≠
      [js "- [ ] a"; js "- [ ] c"; js "- [x] b"].
Proof. vm_compute. repeat split; try reflexivity. discriminate. Qed.

(** C3. Unticking "- [x] b", whose child "  - d" is the last line of the
    buffer "- [x] a", "- [x] b", "  - d": the child is glued to the block
    that follows it in the output, and no line of the new buffer is the
    child's line. *)
Theorem last_subtree_child_line_lost :
  handleClick DEFAULT_SETTINGS None lastSubtreeExample 1
    = [js "- [ ] b"; js "  - d- [x] a"]
  ∧ js "  - d" ∈ lastSubtreeExample
  ∧ js "  - d" ∉ handleClick DEFAULT_SETTINGS None lastSubtreeExample 1.
Proof.
  assert (handleClick DEFAULT_SETTINGS None lastSubtreeExample 1
    = [js "- [ ] b"; js "  - d- [x] a"]) as H by (vm_compute; reflexivity).
  split; [exact H|]. split.
  - unfold lastSubtreeExample. do 2 apply list_elem_of_further.
    apply list_elem_of_here.
  - rewrite H. intros Hin.
    apply elem_of_cons in Hin as [Hin|Hin]; [discriminate Hin|].
    apply elem_of_cons in Hin as [Hin|Hin]; [discriminate Hin|].
    by apply elem_of_nil in Hin.
Qed.

(** C10. Unticking the last line of "- [ ] a", "- [x] b", "- [x] c": the
    replaced range has three lines, the replacement text has two, the line
    of the clicked item being merged with the line "- [x] b"; the lines
    written are no rearrangement of the lines replaced. *)
Theorem last_line_merged_with_next_block :
  regionLines lastLineExample 2 = lastLineExample
  ∧ split (textToInsert lastLineExample 2)
    = [js "- [ ] a"; js "- [ ] c- [x] b"]
  ∧ ¬ (split (textToInsert lastLineExample 2)
       ≡ₚ alter (toggle (isNowTicked lastLineExample 2))
                (2 - blockStartLine lastLineExample 2)
                (regionLines lastLineExample 2))
  ∧ handleClick DEFAULT_SETTINGS None lastLineExample 2
    = [js "- [ ] a"; js "- [ ] c- [x] b"].
Proof.
  split_and!; try (vm_compute; reflexivity).
  intros Hp. apply Permutation_length in Hp. vm_compute in Hp. discriminate.
Qed.

(** * Further properties *)

(** ** Indentation and the two patterns *)

Lemma leadingSpaces_app w s :
  Forall (λ c, isWhiteSpace c = true) w →
  leadingSpaces (w ++ s) = w ++ leadingSpaces s.
Proof.
  induction 1 as [|c w Hc Hw IH]; [done|]. simpl. by rewrite Hc, IH.
Qed.

(** X1. The indentation level counts the white-space units at the start of
    a line, a tab like a space: white space put in front of a line raises
    its level by its length, and level and rest make up the line. *)
Theorem indentation_counts_units w s :
  Forall (λ c, isWhiteSpace c = true) w →
  getIndentationLevel (w ++ s) = length w + getIndentationLevel s
  ∧ getIndentationLevel s + length (trimStart s) = length s.
Proof.
  intros Hw. unfold getIndentationLevel. split.
  - by rewrite leadingSpaces_app, length_app.
  - by rewrite <-length_app, leadingSpaces_trimStart.
Qed.

Lemma indentation_counts_units_witness :
  getIndentationLevel ([9; 32]%N ++ js "- a") = 2 + getIndentationLevel (js "- a").
Proof.
  apply (indentation_counts_units [9; 32]%N (js "- a")).
  repeat constructor.
Defined.

(** X2. A line the ticked pattern matches is a list item, and a list item
    has at least two units after its indentation. *)
Theorem ticked_is_list_item l :
  (tickedCheckboxRegex l = true → listItemRegex l = true)
  ∧ (listItemRegex l = true → getIndentationLevel l + 2 ≤ length l).
Proof.
  split.
  - unfold tickedCheckboxRegex, listItemRegex.
    destruct (trimStart l) as [|b [|w rest]]; try done.
    intros H. by apply andb_prop in H as [H _].
  - intros H. unfold getIndentationLevel.
    rewrite <-(leadingSpaces_trimStart l) at 2. rewrite length_app.
    unfold listItemRegex in H.
    destruct (trimStart l) as [|b [|w rest]]; try done. simpl. lia.
Qed.

Lemma leadingSpaces_app_solid u c x y :
  isWhiteSpace c = false →
  leadingSpaces (u ++ c :: x) = leadingSpaces (u ++ c :: y).
Proof.
  intros Hc. induction u as [|d u IH]; simpl; [by rewrite Hc|].
  by rewrite IH.
Qed.

Lemma listItemRegex_app_bracket u x y :
  listItemRegex (u ++ 91%N :: x) = listItemRegex (u ++ 91%N :: y).
Proof.
  unfold listItemRegex. destruct (trimStart u) as [|b u'] eqn:E.
  - rewrite !(trimStart_app_spaces u) by done. simpl.
    by destruct x, y.
  - rewrite !(trimStart_app_solid u) by (unfold solid; congruence).
    rewrite E. by destruct u'.
Qed.

(** X3. Flipping the checkbox of a line changes neither its indentation
    level nor whether it is a list item: the clicked peer stays a peer. *)
Theorem toggle_keeps_level_and_kind b l :
  getIndentationLevel (toggle b l) = getIndentationLevel l
  ∧ listItemRegex (toggle b l) = listItemRegex l.
Proof.
  destruct (toggle_cases b l) as [->|(u & v & -> & ->)]; [done|].
  unfold getIndentationLevel. split.
  - f_equal. destruct b; by apply leadingSpaces_app_solid.
  - destruct b; apply listItemRegex_app_bracket.
Qed.

(** ** Flipping twice *)

Lemma startsWith_self p s : startsWith p (p ++ s) = true.
Proof. induction p as [|a p IH]; [done|]. simpl. by rewrite N.eqb_refl. Qed.

Lemma replace_here p r s :
  startsWith p s = true → replace p r s = r ++ drop (length p) s.
Proof. intros H. destruct s; simpl; by rewrite H. Qed.

Lemma replace_at_first c p r pre post :
  c ∉ pre →
  replace (c :: p) r (pre ++ (c :: p) ++ post) = pre ++ r ++ post.
Proof.
  intros Hpre. induction pre as [|d pre IH].
  - rewrite app_nil_l. rewrite replace_here by apply startsWith_self.
    by rewrite drop_app_length.
  - apply not_elem_of_cons in Hpre as [Hd Hpre].
    rewrite <-app_comm_cons. rewrite replace_cons.
    + by rewrite IH.
    + simpl. apply andb_false_iff. left. apply N.eqb_neq. congruence.
Qed.

Lemma space_not_bracket c : isWhiteSpace c = true → c ≠ 91%N.
Proof. by intros H ->. Qed.

(** A line with a box after its bullet, cut at the box. *)
Lemma hasCheckbox_split p l :
  hasCheckbox p l = true →
  ∃ ws b w ws' post,
    l = (ws ++ b :: w :: ws') ++ p ++ post
    ∧ Forall (λ c, isWhiteSpace c = true) ws
    ∧ isBullet b = true ∧ isWhiteSpace w = true
    ∧ Forall (λ c, isWhiteSpace c = true) ws'.
Proof.
  unfold hasCheckbox. intros H.
  destruct (trimStart l) as [|b [|w rest]] eqn:E; try done.
  apply andb_prop in H as [H Hp]. apply andb_prop in H as [Hb Hw].
  exists (leadingSpaces l), b, w, (leadingSpaces rest),
         (drop (length p) (trimStart rest)).
  split_and!; try done; try apply leadingSpaces_spaces.
  rewrite <-(leadingSpaces_trimStart l) at 1. rewrite E.
  rewrite <-app_assoc. f_equal. simpl. do 2 f_equal.
  rewrite <-(leadingSpaces_trimStart rest) at 1. f_equal.
  by apply startsWith_app.
Qed.

Lemma hasCheckbox_at p q ws b w ws' post :
  Forall (λ c, isWhiteSpace c = true) ws →
  isBullet b = true → isWhiteSpace w = true →
  Forall (λ c, isWhiteSpace c = true) ws' →
  hasCheckbox p ((ws ++ b :: w :: ws') ++ (91%N :: q) ++ post)
  = startsWith p ((91%N :: q) ++ post).
Proof.
  intros Hws Hb Hw Hws'. unfold hasCheckbox.
  assert (∀ a x, Forall (λ c, isWhiteSpace c = true) a →
    trimStart (a ++ x) = trimStart x) as Hskip.
  { intros a x Ha. apply trimStart_app_spaces.
    induction Ha as [|c a Hc Ha IH]; simpl; [done|]. by rewrite Hc. }
  rewrite <-!app_assoc. rewrite Hskip by done.
  rewrite <-app_comm_cons.
  rewrite trimStart_solid_head by by apply isBullet_not_space.
  rewrite <-(app_comm_cons ws'). cbv beta iota.
  rewrite Hb, Hw, Hskip by done. done.
Qed.

Lemma prefix_no_bracket ws b w ws' :
  Forall (λ c, isWhiteSpace c = true) ws →
  isBullet b = true → isWhiteSpace w = true →
  Forall (λ c, isWhiteSpace c = true) ws' →
  91%N ∉ ws ++ b :: w :: ws'.
Proof.
  intros Hws Hb Hw Hws'.
  assert (∀ a, Forall (λ c, isWhiteSpace c = true) a → 91%N ∉ a) as Hno.
  { intros a Ha Hin. rewrite Forall_forall in Ha. by apply Ha in Hin. }
  rewrite elem_of_app, !elem_of_cons.
  intros [H|[H|[H|H]]].
  - by apply Hno in H.
  - by subst b.
  - by subst w.
  - by apply Hno in H.
Qed.

(** X4. For a line with a box right after its bullet, ticked or not, the
    flip gives the line of the other state, and flipping that one again
    gives the line back. *)
Theorem toggle_twice l :
  hasCheckbox (js "[ ]") l = true ∨ hasCheckbox (js "[x]") l = true →
  let nowTicked := negb (tickedCheckboxRegex l) in
  tickedCheckboxRegex (toggle nowTicked l) = nowTicked
  ∧ toggle (negb nowTicked) (toggle nowTicked l) = l.
Proof.
  change tickedCheckboxRegex with (hasCheckbox (js "[x]")). unfold toggle.
  change (js "[ ]") with (91%N :: js " ]").
  change (js "[x]") with (91%N :: js "x]").
  intros [H|H];
    destruct (hasCheckbox_split _ _ H)
      as (ws & b & w & ws' & post & -> & F1 & Hb & Hw & F2);
    pose proof (prefix_no_bracket ws b w ws' F1 Hb Hw F2) as Hno;
    rewrite !hasCheckbox_at by done; simpl negb; cbv beta iota zeta;
    rewrite replace_at_first by done;
    rewrite hasCheckbox_at by done;
    rewrite replace_at_first by done; done.
Qed.

Lemma toggle_twice_witness :
  tickedCheckboxRegex (toggle true (js "  - [ ] Child 2")) = true
  ∧ toggle false (toggle true (js "  - [ ] Child 2")) = js "  - [ ] Child 2".
Proof.
  apply (toggle_twice (js "  - [ ] Child 2")). left. reflexivity.
Defined.

(** ** The marker scan *)

(** X5. What the scan finds is the nearest marker above the clicked line:
    the line found holds the token, every line between it and the clicked
    line holds no token and passes the list test of the scan, and the
    resolved setting is the marker's, whatever the global setting and the
    front matter say. *)
Theorem nearest_marker_decides settings fm doc clicked b k :
  scanListMarker doc clicked = Some (b, k) →
  k < clicked
  ∧ includes (markerOf b) (trim (getLine doc k)) = true
  ∧ (∀ j, k < j < clicked →
       includes enableMarker (trim (getLine doc j)) = false
       ∧ includes disableMarker (trim (getLine doc j)) = false
       ∧ listItemRegex (trim (getLine doc j)) = true)
  ∧ effectiveSortingEnabled settings fm doc clicked = (b, sourceOf b).
Proof.
  intros H.
  assert (effectiveSortingEnabled settings fm doc clicked = (b, sourceOf b)) as He
    by (unfold effectiveSortingEnabled; rewrite H; by destruct b).
  cut (k < clicked
       ∧ includes (markerOf b) (trim (getLine doc k)) = true
       ∧ (∀ j, k < j < clicked →
           includes enableMarker (trim (getLine doc j)) = false
           ∧ includes disableMarker (trim (getLine doc j)) = false
           ∧ listItemRegex (trim (getLine doc j)) = true)); [tauto|].
  clear He. induction clicked as [|n IH]; [discriminate|].
  simpl in H.
  destruct (includes enableMarker (trim (getLine doc n))) eqn:E1.
  { injection H as <- <-. split_and!; [lia|done|]. intros j Hj. lia. }
  destruct (includes disableMarker (trim (getLine doc n))) eqn:E2.
  { injection H as <- <-. split_and!; [lia|done|]. intros j Hj. lia. }
  destruct (listItemRegex (trim (getLine doc n))) eqn:E3; [|discriminate].
  simpl in H. destruct (IH H) as (H1 & H2 & H3). split_and!; [lia|done|].
  intros j Hj. destruct (decide (j = n)) as [->|]; [done|]. apply H3. lia.
Qed.

Lemma nearest_marker_decides_witness :
  effectiveSortingEnabled DEFAULT_SETTINGS None
    [js "%%checkbox-sort: true%%"; js "%%checkbox-sort: false%%"; js "- [ ] a"; js "- [ ] b"] 3
  = (false, ListMarkerDisable).
Proof.
  apply (nearest_marker_decides DEFAULT_SETTINGS None
    [js "%%checkbox-sort: true%%"; js "%%checkbox-sort: false%%"; js "- [ ] a"; js "- [ ] b"]
    3 false 1).
  reflexivity.
Defined.

(** X6. The resolved setting looks at the lines above the clicked one only:
    two buffers with the same lines above the click resolve alike, so a
    marker on the clicked line or below it has no effect. *)
Theorem setting_reads_lines_above settings fm (doc doc' : document) clicked :
  take clicked doc = take clicked doc' →
  effectiveSortingEnabled settings fm doc clicked
  = effectiveSortingEnabled settings fm doc' clicked.
Proof.
  intros H. unfold effectiveSortingEnabled.
  assert (∀ n, n ≤ clicked → scanListMarker doc n = scanListMarker doc' n) as Hs.
  { induction n as [|n IH]; intros Hn; [done|]. simpl.
    assert (getLine doc n = getLine doc' n) as ->.
    { unfold getLine. rewrite <-(lookup_take_lt doc clicked n) by lia.
      rewrite <-(lookup_take_lt doc' clicked n) by lia. by rewrite H. }
    rewrite IH by lia. done. }
  by rewrite Hs.
Qed.

Lemma setting_reads_lines_above_witness :
  effectiveSortingEnabled DEFAULT_SETTINGS None
    [js "- [ ] a"; js "- [ ] b %%checkbox-sort: false%%"; js "%%checkbox-sort: false%%"] 1
  = effectiveSortingEnabled DEFAULT_SETTINGS None [js "- [ ] a"] 1.
Proof.
  apply (setting_reads_lines_above DEFAULT_SETTINGS None
    [js "- [ ] a"; js "- [ ] b %%checkbox-sort: false%%"; js "%%checkbox-sort: false%%"]
    [js "- [ ] a"] 1).
  reflexivity.
Defined.

(** X7. A line above the click that is neither a marker nor a list item for
    the scan ends it: with no token between that line and the click, the
    setting is the file-level one, whatever stands above that line. *)
Theorem non_list_line_ends_scan settings fm doc clicked m :
  m < clicked →
  listItemRegex (trim (getLine doc m)) = false →
  (∀ j, m ≤ j < clicked →
     includes enableMarker (trim (getLine doc j)) = false
     ∧ includes disableMarker (trim (getLine doc j)) = false) →
  effectiveSortingEnabled settings fm doc clicked
  = fileLevelSortingEnabled settings fm.
Proof.
  intros Hm Hno Hfree. unfold effectiveSortingEnabled.
  assert (scanListMarker doc clicked = None) as ->; [|done].
  induction clicked as [|n IH]; [lia|]. simpl.
  destruct (Hfree n) as [-> ->]; [lia|].
  destruct (decide (m = n)) as [<-|Hne]; [by rewrite Hno|].
  destruct (listItemRegex (trim (getLine doc n))); [|done]. simpl.
  apply IH; [lia|]. intros j Hj. apply Hfree. lia.
Qed.

Lemma non_list_line_ends_scan_witness :
  effectiveSortingEnabled DEFAULT_SETTINGS None
    [js "%%checkbox-sort: false%%"; js "A paragraph."; js "- [ ] a"; js "- [ ] b"] 3
  = (true, GlobalDefault).
Proof.
  apply (non_list_line_ends_scan DEFAULT_SETTINGS None
    [js "%%checkbox-sort: false%%"; js "A paragraph."; js "- [ ] a"; js "- [ ] b"] 3 1).
  - lia.
  - reflexivity.
  - intros j Hj. assert (j = 1 ∨ j = 2) as [-> | ->] by lia; split; reflexivity.
Defined.

(** ** The replaced range and its peers *)

Lemma scanUp_top doc ci n bs :
  n ≤ bs →
  (∀ k, n ≤ k < bs → isDeep doc ci k) →
  0 < scanUp doc ci n bs → ¬ isPeer doc ci (scanUp doc ci n bs - 1).
Proof.
  revert bs. induction n as [|i IH]; intros bs Hn Hdeep; simpl.
  - intros Hpos [_ Hp]. destruct (Hdeep (bs - 1)) as [_ Hd]; lia.
  - assert (∀ k, S i ≤ k < bs → ¬ isPeer doc ci k) as Hnp.
    { intros k Hk [_ Hp]. destruct (Hdeep k) as [_ Hd]; lia. }
    destruct (listItemRegex (getLine doc i)) eqn:Eli; simpl.
    2: { intros Hpos. destruct (decide (bs - 1 = i)) as [->|].
         - intros [H _]. congruence.
         - apply Hnp. lia. }
    destruct (getIndentationLevel (getLine doc i) =? ci) eqn:Eeq.
    { apply IH; [lia|]. intros k Hk. lia. }
    destruct (getIndentationLevel (getLine doc i) <? ci) eqn:Elt.
    { apply Nat.ltb_lt in Elt. intros Hpos.
      destruct (decide (bs - 1 = i)) as [->|].
      - intros [_ H]. lia.
      - apply Hnp. lia. }
    apply Nat.eqb_neq in Eeq. apply Nat.ltb_ge in Elt.
    apply IH; [lia|]. intros k Hk.
    destruct (decide (k = i)) as [->|]; [split; [done|lia]|].
    apply Hdeep. lia.
Qed.

(** X8. The replaced range of a click on a list item: it holds the clicked
    line and lies in the buffer; it starts and ends its peers at lines of
    the clicked line's indentation; all its lines are list items at least
    that deep, those after the last peer deeper; and it cannot grow: the
    line above it is no peer, the line below it is no list item that
    deep. *)
Theorem replaced_range_shape doc clicked l :
  doc !! clicked = Some l → listItemRegex l = true →
  let ci := getIndentationLevel l in
  let bs := blockStartLine doc clicked in
  let be := blockEndLine doc clicked in
  let oe := overallBlockEndLine doc clicked in
  bs ≤ clicked ∧ clicked ≤ be ∧ be ≤ oe ∧ oe < lineCount doc
  ∧ isPeer doc ci bs ∧ isPeer doc ci be
  ∧ (∀ k, bs ≤ k ≤ oe → inBlock doc ci k)
  ∧ (∀ k, be < k ≤ oe → isDeep doc ci k)
  ∧ (0 < bs → ¬ isPeer doc ci (bs - 1))
  ∧ (S oe < lineCount doc → ¬ inBlock doc ci (S oe)).
Proof.
  intros Hl Hli ci bs be oe.
  destruct (region_facts doc clicked l Hl Hli)
    as (F1 & F2 & F3 & F4 & F5 & F6 & F7 & F8 & F9 & F10).
  split_and!; try done.
  unfold bs, blockStartLine. rewrite (getLine_Some _ _ _ Hl).
  apply scanUp_top; [lia|]. intros k Hk. lia.
Qed.

Lemma replaced_range_shape_witness :
  blockStartLine interiorExample 2 ≤ 2
  ∧ 2 ≤ blockEndLine interiorExample 2
  ∧ blockEndLine interiorExample 2 ≤ overallBlockEndLine interiorExample 2
  ∧ overallBlockEndLine interiorExample 2 < lineCount interiorExample.
Proof.
  destruct (replaced_range_shape interiorExample 2 (js "- [x] b") eq_refl eq_refl)
    as (H1 & H2 & H3 & H4 & _).
  exact (conj H1 (conj H2 (conj H3 H4))).
Defined.

Lemma filter_none {A} (P : A → Prop) `{∀ x, Decision (P x)} (L : list A) :
  (∀ x, x ∈ L → ¬ P x) → filter P L = [].
Proof.
  induction L as [|x L IH]; intros HL; [done|].
  rewrite filter_cons, decide_False by (apply HL; apply list_elem_of_here).
  apply IH. intros y Hy. apply HL. by apply list_elem_of_further.
Qed.

Lemma chain_filter doc ci a starts e :
  chain doc ci a starts e →
  filter (λ k, getIndentationLevel (getLine doc k) = ci) (seq a (e - a)) = starts.
Proof.
  revert a. induction starts as [|x r IH]; intros a; simpl.
  - intros ->. by rewrite Nat.sub_diag.
  - intros (-> & Hp & Hd & Hr).
    pose proof (peerTreeEndLine_ge doc a) as Hge.
    pose proof (proj1 (chain_concat _ _ _ _ _ Hr)) as Hle.
    replace (e - a) with (S (peerTreeEndLine doc a - a) + (e - S (peerTreeEndLine doc a))) by lia.
    rewrite seq_app, filter_app.
    replace (a + S (peerTreeEndLine doc a - a)) with (S (peerTreeEndLine doc a)) by lia.
    rewrite (IH _ Hr). simpl seq. rewrite filter_cons.
    rewrite decide_True by apply Hp.
    rewrite filter_none; [done|].
    intros k Hk. apply elem_of_seq in Hk.
    destruct (Hd k) as [_ Hk']; lia.
Qed.

(** X9. The peers the loop works on are exactly the lines of the replaced
    range at the clicked line's indentation, from top to bottom. *)
Theorem peers_are_lines_at_level doc clicked l :
  doc !! clicked = Some l → listItemRegex l = true →
  peers doc clicked =
    filter (λ k, getIndentationLevel (getLine doc k) = getIndentationLevel l)
           (regionIndices doc clicked).
Proof.
  intros Hl Hli. symmetry.
  pose proof (peers_chain doc clicked l Hl Hli) as Hc.
  exact (chain_filter _ _ _ _ _ Hc).
Qed.

Lemma peers_are_lines_at_level_witness :
  peers interiorExample 2 =
    filter (λ k, getIndentationLevel (getLine interiorExample k)
                 = getIndentationLevel (js "- [x] b"))
           (regionIndices interiorExample 2).
Proof.
  apply (peers_are_lines_at_level interiorExample 2 (js "- [x] b")); reflexivity.
Defined.

(** X10. The subtrees of the peers tile the replaced range: put one after
    the other they are the lines from [blockStartLine] to
    [overallBlockEndLine], each once; the lines of a subtree below its peer
    are deeper than the peer, and the line after a subtree is not. *)
Theorem subtrees_tile_range doc clicked l :
  doc !! clicked = Some l → listItemRegex l = true →
  concat (map (span doc) (peers doc clicked)) = regionIndices doc clicked
  ∧ ∀ p, p ∈ peers doc clicked →
      (∀ k, p < k ≤ peerTreeEndLine doc p →
            isDeep doc (getIndentationLevel l) k)
      ∧ (S (peerTreeEndLine doc p) < lineCount doc →
         ¬ isDeep doc (getIndentationLevel l) (S (peerTreeEndLine doc p))).
Proof.
  intros Hl Hli. split; [by apply (peers_regionIndices doc clicked l)|].
  intros p Hp.
  destruct (chain_elem _ _ _ _ _ _ (peers_chain doc clicked l Hl Hli) Hp)
    as (C1 & C2 & C3 & C4).
  split; [done|].
  destruct (peerTreeEndLine_spec doc _ p C3) as (t & <- & T1 & T2 & T3 & T4).
  done.
Qed.

Lemma subtrees_tile_range_witness :
  concat (map (span lastSubtreeExample) (peers lastSubtreeExample 1))
  = regionIndices lastSubtreeExample 1.
Proof.
  apply (subtrees_tile_range lastSubtreeExample 1 (js "- [x] b")); reflexivity.
Defined.

Lemma bucketOf_spec doc clicked a :
  bucketOf doc clicked a =
    if a =? clicked then isNowTicked doc clicked
    else tickedCheckboxRegex (getLine doc a).
Proof. unfold bucketOf, peerItem. by destruct (a =? clicked). Qed.

(** X11. The two buckets are a stable partition of the peers the loop
    visits: the unticked bucket lists, in visiting order, the peers that
    are not ticked, the ticked bucket those that are, where the clicked
    peer counts with its new state and every other peer with the state its
    line shows. *)
Theorem buckets_stable_partition doc clicked :
  let ticked a :=
    if a =? clicked then isNowTicked doc clicked
    else tickedCheckboxRegex (getLine doc a) in
  map originalLine (untickedItemsData (sortedBuckets doc clicked))
    = filter (λ a, ticked a = false) (peers doc clicked)
  ∧ map originalLine (tickedItemsData (sortedBuckets doc clicked))
    = filter (λ a, ticked a = true) (peers doc clicked).
Proof.
  intros ticked.
  assert (∀ L, map originalLine
    (map (λ a, (peerItem doc clicked (isNowTicked doc clicked) a).2) L) = L) as Hid.
  { intros L. rewrite map_map. rewrite <-(map_id L) at 2.
    apply map_ext. intros a. unfold peerItem. by destruct (a =? clicked). }
  rewrite sortedBuckets_unticked, sortedBuckets_ticked, !Hid.
  split; apply list_filter_iff; intros a; by rewrite bucketOf_spec.
Qed.

(** X12. The range handed to the editor covers whole lines: the text read
    back from it is the lines of the region, each followed by a line break
    when lines follow the region, joined by line breaks when the region
    ends the buffer. *)
Theorem replaced_range_is_whole_lines doc clicked l :
  doc !! clicked = Some l → listItemRegex l = true →
  originalBlockText doc clicked =
    if overallBlockEndLine doc clicked =? lineCount doc - 1
    then join (regionLines doc clicked)
    else unlines (regionLines doc clicked).
Proof.
  intros Hl Hli. pose proof (region_bounds doc clicked l Hl Hli) as HB.
  unfold lineCount.
  destruct (overallBlockEndLine doc clicked =? length doc - 1) eqn:E.
  - apply Nat.eqb_eq in E. by apply (original_at_end doc clicked l).
  - apply Nat.eqb_neq in E. apply (original_interior doc clicked l); auto. lia.
Qed.

Lemma replaced_range_is_whole_lines_witness :
  originalBlockText interiorExample 3 =
    if overallBlockEndLine interiorExample 3 =? lineCount interiorExample - 1
    then join (regionLines interiorExample 3)
    else unlines (regionLines interiorExample 3).
Proof.
  apply (replaced_range_is_whole_lines interiorExample 3 (js "- [x] c"));
    reflexivity.
Defined.

(** ** The buffer after a write *)

Lemma wf_take doc i : wf_doc doc → Forall (λ l, LF ∉ l) (take i doc).
Proof. intros [_ H]. by apply Forall_take. Qed.

Lemma wf_drop doc i : wf_doc doc → Forall (λ l, LF ∉ l) (drop i doc).
Proof. intros [_ H]. by apply Forall_drop. Qed.

Lemma drop_nonempty {A} (L : list A) i : i < length L → drop i L ≠ [].
Proof.
  intros Hi E. apply (f_equal length) in E. rewrite length_drop in E.
  simpl in E. lia.
Qed.

Lemma transaction_interior doc bs oe n :
  wf_doc doc → bs ≤ oe → S oe < length doc → Forall (λ l, LF ∉ l) n →
  transaction doc {| line := bs; ch := 0 |} {| line := S oe; ch := 0 |} (unlines n)
  = take bs doc ++ n ++ drop (S oe) doc.
Proof.
  intros Hwf Hbs Hoe Hn. unfold transaction.
  rewrite !posToOffset_line, !Nat.add_0_r.
  rewrite (docText_split doc bs) at 1 by lia. rewrite take_app_length.
  rewrite (docText_split doc (S oe)) by lia. rewrite drop_app_length.
  pose proof (drop_nonempty doc (S oe) Hoe) as HC.
  rewrite app_assoc, <-unlines_app, <-join_app_r by done.
  rewrite <-app_assoc. apply split_join.
  - intros E. apply app_eq_nil in E as [_ E]. apply app_eq_nil in E as [_ E]. done.
  - rewrite !Forall_app. split_and!; [by apply wf_take|done|by apply wf_drop].
Qed.

Lemma transaction_at_end doc bs n :
  wf_doc doc → bs < length doc → n ≠ [] → Forall (λ l, LF ∉ l) n →
  transaction doc {| line := bs; ch := 0 |}
    {| line := length doc - 1; ch := length (getLine doc (length doc - 1)) |}
    (join n)
  = take bs doc ++ n.
Proof.
  intros Hwf Hbs Hne Hn. unfold transaction.
  rewrite !posToOffset_line, !Nat.add_0_r.
  assert (length (unlines (take (length doc - 1) doc))
          + length (getLine doc (length doc - 1))
          = length (docText doc)) as E.
  { rewrite (docText_split doc (length doc - 1)) by lia.
    rewrite length_app. f_equal.
    destruct (lookup_lt_is_Some_2 doc (length doc - 1)) as [x Hx]; [lia|].
    rewrite (drop_S _ _ _ Hx), (getLine_Some _ _ _ Hx).
    rewrite drop_ge by lia. done. }
  rewrite E, drop_all, app_nil_r.
  rewrite (docText_split doc bs) by lia. rewrite take_app_length.
  rewrite <-join_app_r by done. apply split_join.
  - intros E'. apply app_eq_nil in E' as [_ E']. done.
  - rewrite Forall_app. split; [by apply wf_take|done].
Qed.

Lemma chain_last doc ci a ps p e :
  chain doc ci a (ps ++ [p]) e → S (peerTreeEndLine doc p) = e.
Proof.
  revert a. induction ps as [|x ps IH]; intros a; simpl.
  - by intros (_ & _ & _ & ->).
  - intros (_ & _ & _ & Hr). by apply (IH _ Hr).
Qed.

Section written.
Context (settings : CheckboxSortSettings) (fm : frontmatter).
Context (doc : document) (clicked : nat) (l : jsstring).
Hypothesis Hwf : wf_doc doc.
Hypothesis Hl : doc !! clicked = Some l.
Hypothesis Hli : listItemRegex l = true.

Let bs := blockStartLine doc clicked.
Let oe := overallBlockEndLine doc clicked.

(** The lines of a written text take the place of the lines of the
    region. *)
Lemma written_lines mid :
  mid ≠ [] → Forall (λ x, LF ∉ x) mid →
  textToInsert doc clicked
    = (if oe =? length doc - 1 then join mid else unlines mid) →
  transaction doc (deleteFrom doc clicked) (deleteTo doc clicked)
              (textToInsert doc clicked)
  = take bs doc ++ mid ++ drop (S oe) doc.
Proof.
  intros Hne HF ->. pose proof (region_bounds doc clicked l Hl Hli) as HB.
  fold bs oe in HB. unfold deleteFrom, deleteTo, lineCount. fold bs oe.
  destruct (oe =? length doc - 1) eqn:E.
  - apply Nat.eqb_eq in E. rewrite E at 1 2.
    rewrite transaction_at_end by (done || lia).
    rewrite (drop_ge doc (S oe)) by lia. by rewrite app_nil_r.
  - apply Nat.eqb_neq in E. apply transaction_interior; (done || lia).
Qed.

Lemma text_lines :
  ∃ mid, mid ≠ [] ∧ Forall (λ x, LF ∉ x) mid
         ∧ textToInsert doc clicked
           = (if oe =? length doc - 1 then join mid else unlines mid).
Proof.
  pose proof (region_bounds doc clicked l Hl Hli) as HB. fold bs oe in HB.
  destruct (newText_nonempty doc clicked l Hwf Hl Hli) as [Hn _].
  destruct (newText_solid doc clicked l Hwf Hl Hli) as (_ & Ln & _).
  destruct (oe =? length doc - 1) eqn:E.
  - apply Nat.eqb_eq in E.
    destruct (textToInsert_at_end doc clicked l Hwf Hl Hli E)
      as [Ht|(n' & Ht & _ & Hn' & _ & Ln')]; eauto.
  - apply Nat.eqb_neq in E.
    exists (map (newLine doc clicked) (newOrder doc clicked)).
    split_and!; try done.
    apply (textToInsert_interior doc clicked l Hwf Hl Hli). fold oe. lia.
Qed.

Lemma doc_region :
  doc = take bs doc ++ regionLines doc clicked ++ drop (S oe) doc.
Proof.
  pose proof (region_bounds doc clicked l Hl Hli) as HB. fold bs oe in HB.
  unfold regionLines, regionIndices. fold bs oe.
  rewrite map_getLine_seq by lia.
  rewrite <-(take_drop bs doc) at 1. f_equal.
  rewrite <-(take_drop (S oe - bs) (drop bs doc)) at 1. f_equal.
  rewrite drop_drop. f_equal. lia.
Qed.

Lemma finalBlockText_at_end X Y :
  oe = length doc - 1 → newOrder doc clicked = X ++ oe :: Y →
  finalBlockText doc clicked
  = unlines (map (newLine doc clicked) X) ++ newLine doc clicked oe
    ++ unlines (map (newLine doc clicked) Y).
Proof.
  intros Hoe EX.
  assert (NoDup (newOrder doc clicked)) as Hnd.
  { rewrite (newOrder_perm doc clicked l Hl Hli). apply NoDup_seq. }
  rewrite EX in Hnd. apply NoDup_app in Hnd as (_ & HX & HY).
  apply NoDup_cons in HY as [HY _].
  rewrite (finalBlockText_newOrder doc clicked l Hwf Hl Hli), EX.
  rewrite map_app, concat_app. simpl.
  rewrite !concat_terminated.
  - f_equal. unfold terminator, lineCount.
    rewrite (proj2 (Nat.eqb_eq oe (length doc - 1))) by done.
    by rewrite app_nil_r.
  - intros k Hk ->. apply HY. by rewrite Hoe.
  - intros k Hk ->. apply (HX _ Hk). rewrite <-Hoe. apply list_elem_of_here.
Qed.

Lemma lines_of_newOrder X :
  (∀ k, k ∈ X → k ∈ newOrder doc clicked) →
  Forall solid (map (newLine doc clicked) X)
  ∧ Forall (λ x, LF ∉ x) (map (newLine doc clicked) X).
Proof.
  intros HX. apply (newLines_solid doc clicked l Hwf Hl Hli).
  intros k Hk. apply (newOrder_in_region doc clicked l Hl Hli). by apply HX.
Qed.

Lemma normalize_at_end final :
  oe = length doc - 1 →
  normalizeNewline doc oe final = stripLF final.
Proof.
  intros Hoe. unfold normalizeNewline, stripLF, lineCount.
  rewrite (proj2 (Nat.eqb_eq oe (length doc - 1))) by done.
  rewrite (proj2 (Nat.ltb_ge oe (length doc - 1))) by lia.
  by rewrite andb_false_r, andb_true_r.
Qed.

Lemma textToInsert_last_stays X :
  oe = length doc - 1 → newOrder doc clicked = X ++ [oe] →
  textToInsert doc clicked
  = join (map (newLine doc clicked) (newOrder doc clicked)).
Proof.
  intros Hoe EX. unfold textToInsert. fold oe.
  rewrite normalize_at_end, (finalBlockText_at_end X []) by done.
  change (unlines (map _ [])) with (@nil N). rewrite app_nil_r.
  destruct (lines_of_newOrder [oe]) as [Sz Lz].
  { intros k Hk. rewrite EX, elem_of_app. by right. }
  simpl in Sz, Lz. apply Forall_cons in Sz as [Sz _].
  apply Forall_cons in Lz as [Lz _]. unfold stripLF.
  rewrite endsWithLF_app_line by (by apply solid_nonempty || done).
  rewrite EX, map_app. by rewrite join_app_r.
Qed.

Lemma textToInsert_last_moved X y Y :
  oe = length doc - 1 → newOrder doc clicked = X ++ oe :: y :: Y →
  textToInsert doc clicked
  = join (map (newLine doc clicked) X
          ++ (newLine doc clicked oe ++ newLine doc clicked y)
             :: map (newLine doc clicked) Y).
Proof.
  intros Hoe EX. unfold textToInsert. fold oe.
  rewrite normalize_at_end, (finalBlockText_at_end X (y :: Y)) by done.
  rewrite (unlines_join (map _ (y :: Y))) by done.
  rewrite !app_assoc, stripLF_snoc.
  rewrite join_app_r by done. simpl map. rewrite join_glue.
  by rewrite <-app_assoc.
Qed.

(** Where the last line of the buffer ends up in the new order. *)
Lemma newOrder_last_stays p :
  last (peers doc clicked) = Some p →
  bucketOf doc clicked p = true
  ∨ (∀ q, q ∈ peers doc clicked → bucketOf doc clicked q = false) →
  ∃ X, newOrder doc clicked = X ++ [oe].
Proof.
  intros Hp Hstay. apply last_Some in Hp as [ps Hps].
  pose proof (peers_chain doc clicked l Hl Hli) as Hc. rewrite Hps in Hc.
  pose proof (chain_last _ _ _ _ _ _ Hc) as Hlast. fold oe in Hlast.
  pose proof (peerTreeEndLine_ge doc p) as Hge.
  assert (span doc p = seq p (oe - p) ++ [oe]) as Hspan.
  { unfold span. replace (S (peerTreeEndLine doc p) - p) with (S (oe - p)) by lia.
    rewrite seq_S. do 2 f_equal. lia. }
  unfold newOrder. rewrite Hps, !filter_app.
  destruct Hstay as [Ht|Hall].
  - rewrite (filter_none (λ a, bucketOf doc clicked a = false) [p]).
    2: { intros x Hx. apply list_elem_of_singleton in Hx as ->. congruence. }
    rewrite filter_cons, decide_True by done. rewrite filter_nil.
    rewrite app_nil_r, app_assoc, map_app, concat_app. simpl.
    rewrite app_nil_r, Hspan, app_assoc. eauto.
  - rewrite (filter_none (λ a, bucketOf doc clicked a = true) ps).
    2: { intros x Hx. rewrite (Hall x); [done|].
         rewrite Hps, elem_of_app. by left. }
    rewrite (filter_none (λ a, bucketOf doc clicked a = true) [p]).
    2: { intros x Hx. rewrite (Hall x); [done|].
         rewrite Hps, elem_of_app. by right. }
    rewrite filter_cons, decide_True.
    2: { apply Hall. rewrite Hps, elem_of_app. right. apply list_elem_of_here. }
    rewrite filter_nil, !app_nil_r, map_app, concat_app. simpl.
    rewrite app_nil_r, Hspan, app_assoc. eauto.
Qed.

Lemma newOrder_last_moved p q :
  last (peers doc clicked) = Some p → bucketOf doc clicked p = false →
  q ∈ peers doc clicked → bucketOf doc clicked q = true →
  ∃ X y Y, newOrder doc clicked = X ++ oe :: y :: Y.
Proof.
  intros Hp Hpf Hq Hqt. apply last_Some in Hp as [ps Hps].
  pose proof (peers_chain doc clicked l Hl Hli) as Hc. rewrite Hps in Hc.
  pose proof (chain_last _ _ _ _ _ _ Hc) as Hlast. fold oe in Hlast.
  pose proof (peerTreeEndLine_ge doc p) as Hge.
  assert (span doc p = seq p (oe - p) ++ [oe]) as Hspan.
  { unfold span. replace (S (peerTreeEndLine doc p) - p) with (S (oe - p)) by lia.
    rewrite seq_S. do 2 f_equal. lia. }
  assert (q ∈ filter (λ a, bucketOf doc clicked a = true) ps) as Hin.
  { apply list_elem_of_filter. split; [done|].
    rewrite Hps, elem_of_app in Hq. destruct Hq as [Hq|Hq]; [done|].
    apply list_elem_of_singleton in Hq as ->. congruence. }
  destruct (filter (λ a, bucketOf doc clicked a = true) ps) as [|y T] eqn:ET.
  { by apply elem_of_nil in Hin. }
  pose proof (peerTreeEndLine_ge doc y) as Hgy.
  assert (span doc y = y :: seq (S y) (peerTreeEndLine doc y - y)) as Hy.
  { unfold span. by replace (S (peerTreeEndLine doc y) - y)
      with (S (peerTreeEndLine doc y - y)) by lia. }
  unfold newOrder. rewrite Hps, !filter_app, ET.
  rewrite (filter_none (λ a, bucketOf doc clicked a = true) [p]).
  2: { intros x Hx. apply list_elem_of_singleton in Hx as ->. congruence. }
  rewrite filter_cons, decide_True by done. rewrite filter_nil, app_nil_r.
  rewrite !map_app, !concat_app. simpl. rewrite app_nil_r, Hspan, Hy.
  rewrite <-!app_assoc. simpl. rewrite app_assoc. eauto.
Qed.

End written.

Section after_write.
Context (settings : CheckboxSortSettings) (fm : frontmatter).
Context (doc : document) (clicked : nat).
Hypothesis Hwf : wf_doc doc.

Let bs := blockStartLine doc clicked.
Let oe := overallBlockEndLine doc clicked.

Lemma written_frame from to t :
  sortCheckboxesAroundClick settings fm doc clicked = Transaction from to t →
  ∃ l mid,
    doc !! clicked = Some l ∧ listItemRegex l = true
    ∧ noChangesNeeded doc clicked = false
    ∧ mid ≠ [] ∧ Forall (λ x, LF ∉ x) mid
    ∧ textToInsert doc clicked
      = (if oe =? length doc - 1 then join mid else unlines mid)
    ∧ handleClick settings fm doc clicked
      = take bs doc ++ mid ++ drop (S oe) doc.
Proof.
  intros Ht. unfold handleClick. rewrite Ht. simpl.
  apply sort_is_transaction in Ht as (l & Hl & _ & Hli & Hnc & -> & -> & ->).
  destruct (text_lines doc clicked l Hwf Hl Hli) as (mid & Hne & HF & Hmid).
  exists l, mid. split_and!; try done.
  by apply (written_lines doc clicked l Hwf Hl Hli).
Qed.

(** X13. A write leaves every line outside the replaced range alone: the
    lines above [blockStartLine] are the first lines of the new buffer, the
    lines below [overallBlockEndLine] its last ones. *)
Theorem lines_outside_untouched from to t :
  sortCheckboxesAroundClick settings fm doc clicked = Transaction from to t →
  take bs (handleClick settings fm doc clicked) = take bs doc
  ∧ drop (S oe) doc `suffix_of` handleClick settings fm doc clicked.
Proof.
  intros Ht.
  destruct (written_frame _ _ _ Ht) as (l & mid & Hl & Hli & _ & _ & _ & _ & ->).
  pose proof (region_bounds doc clicked l Hl Hli) as HB. fold bs oe in HB.
  split.
  - rewrite take_app_le by (rewrite length_take; lia).
    rewrite take_take. f_equal. lia.
  - exists (take bs doc ++ mid). by rewrite <-app_assoc.
Qed.

(** X14. The handler never writes a buffer back unchanged: after a
    transaction the buffer differs from the one before. *)
Theorem write_changes_buffer from to t :
  sortCheckboxesAroundClick settings fm doc clicked = Transaction from to t →
  handleClick settings fm doc clicked ≠ doc.
Proof.
  intros Ht.
  destruct (written_frame _ _ _ Ht)
    as (l & mid & Hl & Hli & Hnc & _ & _ & Hmid & ->).
  pose proof (region_bounds doc clicked l Hl Hli) as HB. fold bs oe in HB.
  intros E.
  assert (take bs doc ++ mid ++ drop (S oe) doc
          = take bs doc ++ regionLines doc clicked ++ drop (S oe) doc) as E'
    by (rewrite E; apply (doc_region doc clicked l Hl Hli)).
  apply app_inv_head, app_inv_tail in E'. subst mid.
  unfold noChangesNeeded in Hnc. apply bool_decide_eq_false in Hnc.
  apply Hnc. f_equal. rewrite Hmid.
  destruct (oe =? length doc - 1) eqn:Eoe.
  - apply Nat.eqb_eq in Eoe. symmetry. by apply (original_at_end doc clicked l).
  - apply Nat.eqb_neq in Eoe. symmetry.
    apply (original_interior doc clicked l); auto. fold oe. lia.
Qed.

(** When the subtree with the last line of the buffer is not moved in front
    of another one, the new lines are those of the new order. *)
Lemma kept_lines from to t :
  sortCheckboxesAroundClick settings fm doc clicked = Transaction from to t →
  oe < lineCount doc - 1
  ∨ (∀ p, last (peers doc clicked) = Some p → bucketOf doc clicked p = true)
  ∨ (∀ q, q ∈ peers doc clicked → bucketOf doc clicked q = false) →
  ∃ l, doc !! clicked = Some l ∧ listItemRegex l = true
  ∧ handleClick settings fm doc clicked
    = take bs doc ++ map (newLine doc clicked) (newOrder doc clicked)
      ++ drop (S oe) doc.
Proof.
  intros Ht Hcond. unfold handleClick. rewrite Ht. simpl.
  apply sort_is_transaction in Ht as (l & Hl & _ & Hli & Hnc & -> & -> & ->).
  exists l. split_and!; try done.
  pose proof (region_bounds doc clicked l Hl Hli) as HB. fold bs oe in HB.
  destruct (newText_nonempty doc clicked l Hwf Hl Hli) as [Hn _].
  destruct (newText_solid doc clicked l Hwf Hl Hli) as (_ & Ln & _).
  apply (written_lines doc clicked l Hwf Hl Hli); try done. fold oe.
  destruct (oe =? length doc - 1) eqn:Eoe.
  - apply Nat.eqb_eq in Eoe.
    assert (∃ p, last (peers doc clicked) = Some p) as [p Hp].
    { destruct (last (peers doc clicked)) eqn:E; [eauto|].
      apply last_None in E. pose proof (clicked_in_peers doc clicked l Hl Hli) as Hin.
      rewrite E in Hin. by apply elem_of_nil in Hin. }
    destruct (newOrder_last_stays doc clicked l Hl Hli p Hp) as [X HX].
    { destruct Hcond as [H|[H|H]]; [unfold lineCount in H; lia|left; auto|by right]. }
    by apply (textToInsert_last_stays doc clicked l Hwf Hl Hli X).
  - apply Nat.eqb_neq in Eoe.
    apply (textToInsert_interior doc clicked l Hwf Hl Hli). fold oe. lia.
Qed.

(** X15. When lines follow the replaced range, or the last peer goes to
    the ticked bucket, or no peer does, a write puts in place of the range
    exactly its own lines in the new order: the subtrees of the unticked
    peers, then those of the ticked peers, the clicked line flipped. *)
Theorem rewrite_keeps_lines from to t :
  sortCheckboxesAroundClick settings fm doc clicked = Transaction from to t →
  oe < lineCount doc - 1
  ∨ (∀ p, last (peers doc clicked) = Some p → bucketOf doc clicked p = true)
  ∨ (∀ q, q ∈ peers doc clicked → bucketOf doc clicked q = false) →
  handleClick settings fm doc clicked
  = take bs doc ++ map (newLine doc clicked) (newOrder doc clicked)
    ++ drop (S oe) doc.
Proof. intros Ht Hc. by destruct (kept_lines _ _ _ Ht Hc) as (l & _ & _ & ->). Qed.

(** X16. Under the same condition the new buffer has as many lines as the
    old one and holds the same lines, the clicked one flipped, in another
    order. *)
Theorem rewrite_permutes_buffer from to t :
  sortCheckboxesAroundClick settings fm doc clicked = Transaction from to t →
  oe < lineCount doc - 1
  ∨ (∀ p, last (peers doc clicked) = Some p → bucketOf doc clicked p = true)
  ∨ (∀ q, q ∈ peers doc clicked → bucketOf doc clicked q = false) →
  handleClick settings fm doc clicked
    ≡ₚ alter (toggle (isNowTicked doc clicked)) clicked doc
  ∧ length (handleClick settings fm doc clicked) = length doc.
Proof.
  intros Ht Hc. destruct (kept_lines _ _ _ Ht Hc) as (l & Hl & Hli & E).
  pose proof (region_bounds doc clicked l Hl Hli) as HB. fold bs oe in HB.
  pose proof (newLines_perm doc clicked l Hl Hli) as Hp. fold bs in Hp.
  destruct (regionLines_solid doc clicked l Hwf Hl Hli) as (_ & _ & _ & Hlen).
  fold bs oe in Hlen.
  assert (handleClick settings fm doc clicked
          ≡ₚ alter (toggle (isNowTicked doc clicked)) clicked doc) as HP.
  { rewrite E, Hp. set (f := toggle (isNowTicked doc clicked)).
    assert (alter f clicked doc
            = take bs doc ++ alter f (clicked - bs) (regionLines doc clicked)
              ++ drop (S oe) doc) as ->; [|done].
    rewrite (doc_region doc clicked l Hl Hli) at 1. fold bs oe.
    replace clicked with (length (take bs doc) + (clicked - bs)) at 1
      by (rewrite length_take; lia).
    rewrite alter_app_r, alter_app_l by lia. done. }
  split; [done|]. by rewrite (Permutation_length HP), length_alter.
Qed.

(** X17. When the replaced range ends the buffer, the last peer goes to
    the unticked bucket and some peer to the ticked one, the handler writes,
    and the last line of the buffer is glued to the first line of the block
    written after it: the new buffer is one line shorter. *)
Theorem moved_last_line_is_merged l p q :
  doc !! clicked = Some l →
  (effectiveSortingEnabled settings fm doc clicked).1 = true →
  listItemRegex l = true →
  oe = lineCount doc - 1 →
  last (peers doc clicked) = Some p → bucketOf doc clicked p = false →
  q ∈ peers doc clicked → bucketOf doc clicked q = true →
  ∃ X y Y,
    newOrder doc clicked = X ++ oe :: y :: Y
    ∧ sortCheckboxesAroundClick settings fm doc clicked
      = Transaction (deleteFrom doc clicked) (deleteTo doc clicked)
                    (textToInsert doc clicked)
    ∧ handleClick settings fm doc clicked
      = take bs doc ++ map (newLine doc clicked) X
        ++ (newLine doc clicked oe ++ newLine doc clicked y)
           :: map (newLine doc clicked) Y
    ∧ S (length (handleClick settings fm doc clicked)) = length doc.
Proof.
  intros Hl He Hli Hoe Hp Hpf Hq Hqt. unfold lineCount in Hoe.
  pose proof (region_bounds doc clicked l Hl Hli) as HB. fold bs oe in HB.
  destruct (newOrder_last_moved doc clicked l Hl Hli p q Hp Hpf Hq Hqt)
    as (X & y & Y & EX).
  pose proof (textToInsert_last_moved doc clicked l Hwf Hl Hli X y Y Hoe EX) as Ht.
  set (n' := map (newLine doc clicked) X
             ++ (newLine doc clicked oe ++ newLine doc clicked y)
                :: map (newLine doc clicked) Y) in *.
  destruct (lines_of_newOrder doc clicked l Hwf Hl Hli (X ++ oe :: y :: Y))
    as [_ LF']; [intros k Hk; by rewrite EX|].
  rewrite map_app in LF'. apply Forall_app in LF' as [LX LF'].
  simpl in LF'. apply Forall_cons in LF' as [Lo LF'].
  apply Forall_cons in LF' as [Ly LY].
  assert (Forall (λ x, LF ∉ x) n') as Ln'.
  { unfold n'. apply Forall_app. split; [done|]. apply Forall_cons.
    split; [|done]. rewrite elem_of_app. tauto. }
  assert (n' ≠ []) as Hn' by (unfold n'; by destruct (map _ X)).
  assert (S (length n') = S oe - bs) as Hlen.
  { pose proof (length_newOrder doc clicked l Hl Hli) as Hno.
    fold bs oe in Hno. rewrite EX, !length_app in Hno. simpl in Hno.
    unfold n'. rewrite !length_app. simpl. rewrite !length_map. lia. }
  destruct (regionLines_solid doc clicked l Hwf Hl Hli) as (_ & Lo' & Ho' & Hlo).
  fold bs oe in Hlo.
  assert (noChangesNeeded doc clicked = false) as Hnc.
  { unfold noChangesNeeded. apply bool_decide_eq_false. intros E.
    apply (noChanges_exact doc clicked l Hwf Hl Hli) in E.
    rewrite Ht, (original_at_end doc clicked l Hl Hli Hoe) in E.
    apply join_inj in E; try done.
    assert (n' = regionLines doc clicked) as En by exact E.
    apply (f_equal length) in En. lia. }
  assert (sortCheckboxesAroundClick settings fm doc clicked
          = Transaction (deleteFrom doc clicked) (deleteTo doc clicked)
                        (textToInsert doc clicked)) as Hs.
  { rewrite (sort_enabled _ _ _ _ _ Hl He), Hli, Hnc. done. }
  assert (handleClick settings fm doc clicked = take bs doc ++ n') as Hh.
  { unfold handleClick. rewrite Hs. simpl.
    rewrite (written_lines doc clicked l Hwf Hl Hli n') ; try done.
    - fold bs oe. rewrite (drop_ge doc (S oe)) by lia. by rewrite app_nil_r.
    - fold oe. by rewrite (proj2 (Nat.eqb_eq oe (length doc - 1))). }
  exists X, y, Y. split_and!; try done.
  rewrite Hh, length_app, length_take. lia.
Qed.

End after_write.

Lemma lines_outside_untouched_witness :
  take (blockStartLine interiorExample 3)
       (handleClick DEFAULT_SETTINGS None interiorExample 3)
  = take (blockStartLine interiorExample 3) interiorExample
  ∧ drop (S (overallBlockEndLine interiorExample 3)) interiorExample
    `suffix_of` handleClick DEFAULT_SETTINGS None interiorExample 3.
Proof.
  apply (lines_outside_untouched DEFAULT_SETTINGS None interiorExample 3)
    with (from := {| line := 1; ch := 0 |}) (to := {| line := 4; ch := 0 |})
         (t := unlines [js "- [ ] a"; js "- [ ] c"; js "- [x] b"]).
  - apply (bool_decide_unpack _). vm_compute. exact I.
  - vm_compute. reflexivity.
Defined.

Lemma write_changes_buffer_witness :
  handleClick DEFAULT_SETTINGS None basicExample 0 ≠ basicExample.
Proof.
  apply (write_changes_buffer DEFAULT_SETTINGS None basicExample 0)
    with (from := {| line := 0; ch := 0 |}) (to := {| line := 2; ch := 11 |})
         (t := join [js "- [ ] Get gas"; js "- [x] Buy milk"; js "- [x] Bread"]).
  - apply (bool_decide_unpack _). vm_compute. exact I.
  - vm_compute. reflexivity.
Defined.

Lemma rewrite_keeps_lines_witness :
  handleClick DEFAULT_SETTINGS None interiorExample 3
  = take (blockStartLine interiorExample 3) interiorExample
    ++ map (newLine interiorExample 3) (newOrder interiorExample 3)
    ++ drop (S (overallBlockEndLine interiorExample 3)) interiorExample.
Proof.
  apply (rewrite_keeps_lines DEFAULT_SETTINGS None interiorExample 3)
    with (from := {| line := 1; ch := 0 |}) (to := {| line := 4; ch := 0 |})
         (t := unlines [js "- [ ] a"; js "- [ ] c"; js "- [x] b"]).
  - apply (bool_decide_unpack _). vm_compute. exact I.
  - vm_compute. reflexivity.
  - left. vm_compute. reflexivity.
Defined.

Lemma rewrite_permutes_buffer_witness :
  handleClick DEFAULT_SETTINGS None basicExample 0
    ≡ₚ alter (toggle (isNowTicked basicExample 0)) 0 basicExample
  ∧ length (handleClick DEFAULT_SETTINGS None basicExample 0)
    = length basicExample.
Proof.
  apply (rewrite_permutes_buffer DEFAULT_SETTINGS None basicExample 0)
    with (from := {| line := 0; ch := 0 |}) (to := {| line := 2; ch := 11 |})
         (t := join [js "- [ ] Get gas"; js "- [x] Buy milk"; js "- [x] Bread"]).
  - apply (bool_decide_unpack _). vm_compute. exact I.
  - vm_compute. reflexivity.
  - right. left. intros p Hp. vm_compute in Hp. injection Hp as <-.
    vm_compute. reflexivity.
Defined.

Lemma moved_last_line_is_merged_witness :
  S (length (handleClick DEFAULT_SETTINGS None lastLineExample 2))
  = length lastLineExample.
Proof.
  destruct (moved_last_line_is_merged DEFAULT_SETTINGS None lastLineExample 2)
    with (l := js "- [x] c") (p := 2) (q := 1)
    as (X & y & Y & _ & _ & _ & H).
  - apply (bool_decide_unpack _). vm_compute. exact I.
  - reflexivity.
  - reflexivity.
  - reflexivity.
  - vm_compute. reflexivity.
  - vm_compute. reflexivity.
  - vm_compute. reflexivity.
  - apply (bool_decide_unpack _). vm_compute. exact I.
  - vm_compute. reflexivity.
  - exact H.
Defined.

(** ** The settings *)

Lemma settings_keys_differ : js "enableGlobalCheckboxSort" ≠ js "debugMode".
Proof. discriminate. Qed.

Lemma loadSettings_union data :
  loadSettings data = default ∅ data ∪ defaultSettingsObject.
Proof.
  unfold loadSettings, objectAssign. simpl. rewrite (right_id_L ∅ (∪)).
  destruct data; simpl; [done|]. by rewrite (left_id_L ∅ (∪)).
Qed.

(** X18. Loading the settings: an entry of the data file wins, an entry the
    data file lacks, or every entry when there is no data file, takes the
    default; so a fresh installation sorts and does not log. *)
Theorem loadSettings_defaults data k :
  loadSettings data !! k =
    match data ≫= (.!! k) with
    | Some v => Some v
    | None => defaultSettingsObject !! k
    end
  ∧ settingsRecord (loadSettings None) = DEFAULT_SETTINGS.
Proof.
  split; [|reflexivity].
  rewrite loadSettings_union, lookup_union.
  destruct data as [d|]; simpl.
  - by destruct (d !! k), (defaultSettingsObject !! k).
  - rewrite lookup_empty. by destruct (defaultSettingsObject !! k).
Qed.

(** X19. What the settings tab sets is what comes back: after a load and
    the two toggles set to [w] and [v], saving and loading again gives the
    same object, and the handler reads [w] and [v] from it. *)
Theorem settings_round_trip data v w :
  let s := setEnableGlobalCheckboxSort w (setDebugMode v (loadSettings data)) in
  loadSettings (saveSettings s) = s
  ∧ settingsRecord s = {| enableGlobalCheckboxSort := w; debugMode := v |}.
Proof.
  intros s. split.
  - unfold saveSettings. rewrite loadSettings_union. simpl.
    apply map_eq. intros k. rewrite lookup_union.
    destruct (s !! k) as [x|] eqn:Es.
    + by destruct (defaultSettingsObject !! k).
    + unfold s, setEnableGlobalCheckboxSort, setDebugMode in Es.
      apply lookup_insert_None in Es as [Es Hk1].
      apply lookup_insert_None in Es as [Es Hk2].
      unfold defaultSettingsObject.
      rewrite lookup_insert_ne by done. by rewrite lookup_singleton_ne.
  - unfold settingsRecord, getProperty, s, setEnableGlobalCheckboxSort, setDebugMode.
    rewrite lookup_insert_eq.
    rewrite lookup_insert_ne by apply settings_keys_differ.
    by rewrite lookup_insert_eq.
Qed.
